(** * cgrep: a concurrent grep (cgrep.go)

    A shallow embedding of [Job.Do], [grep] and [commandLineFiles].

    - Bytes are [Byte.byte], a line ([[]byte]) is a [list byte], a file name
      is a [string], Go's [int] is a [Z] wrapped to 64 bits.
    - A compiled [*regexp.Regexp] is used only through [lineRx.Match(line)]:
      it is modelled by its matching function [list byte -> bool].
    - A file is the bytes it delivers and the error that ends the reading
      ([io.EOF] for a file read to its end).
    - [Job.Do] is modelled by its effects: the values it sends on
      [job.results], in order, and the lines it logs.
    - [grep] is a step relation on the state of its goroutines and of its
      three channels. *)

From Stdlib Require Import Strings.String Strings.Byte.
From Stdlib Require Import List ZArith Bool Arith Lia.
From Stdlib Require Import Permutation Sorted.
From Stdlib Require Import DecimalString.
Import ListNotations.

Local Open Scope Z_scope.

(** ** Go's [int] *)

Module GoInt.

(** [int] is 64 bits wide on the 64-bit platforms. *)
Definition MaxInt : Z := 2 ^ 63 - 1.
Definition MinInt : Z := - 2 ^ 63.

(** The value an [int] holds after an arithmetic result [z]. *)
Definition wrap (z : Z) : Z := (z + 2 ^ 63) mod 2 ^ 64 - 2 ^ 63.

(** [lino++] *)
Definition incr (i : Z) : Z := wrap (i + 1).

End GoInt.

(** ** Bytes *)

Definition NL : byte := "010"%byte.   (* '\n' *)
Definition CR : byte := "013"%byte.   (* '\r' *)

(** The bytes of a string literal. *)
Definition bytes (s : string) : list byte := list_byte_of_string s.

Fixpoint contains (cutset : list byte) (b : byte) : bool :=
  match cutset with
  | [] => false
  | c :: cs => Byte.eqb b c || contains cs b
  end.

Fixpoint dropWhile {A} (p : A -> bool) (l : list A) : list A :=
  match l with
  | [] => []
  | x :: r => if p x then dropWhile p r else l
  end.

(** [bytes.TrimRight(s, cutset)] for a cutset of ASCII bytes: the bytes of
    the cutset are sliced off the end of [s], from the last one backwards. *)
Definition TrimRight (s cutset : list byte) : list byte :=
  rev (dropWhile (contains cutset) (rev s)).

(** ** Errors, files, the buffered reader *)

Inductive error : Type :=
| EOF                      (* io.EOF *)
| Err (msg : string).      (* any other error *)

Definition is_EOF (e : error) : bool :=
  match e with EOF => true | Err _ => false end.

(** [os.ErrInvalid], what the methods of a nil [*os.File] return. *)
Definition ErrInvalid : error := Err "invalid argument".

(** An [*os.File] as [Job.Do] sees it: the bytes its reads deliver, and the
    error that follows them. *)
Record File : Type := mkFile {
  content : list byte;
  failure : error
}.

(** The nil [*os.File] left in [file] when [os.Open] fails: [Read] on it
    delivers nothing and returns [os.ErrInvalid]. *)
Definition nilFile : File := mkFile [] ErrInvalid.

(** [os.Open]: the file, or the error. *)
Definition FileSystem : Type := string -> File + error.

(** [file, err := os.Open(name)] *)
Definition Open (fs : FileSystem) (name : string) : File * option error :=
  match fs name with
  | inl file => (file, None)
  | inr err => (nilFile, Some err)
  end.

(** [reader.ReadBytes(delim)] on the bytes not read yet: the line up to and
    including the first [delim] and no error, or, when the input ends before
    a [delim], the bytes read so far and the error. Returns the rest of the
    input as well. *)
Fixpoint ReadBytes (delim : byte) (input : list byte) (e : error)
  : list byte * option error * list byte :=
  match input with
  | [] => ([], Some e, [])
  | b :: rest =>
      if Byte.eqb b delim then ([b], None, rest)
      else
        let '(line, err, rest') := ReadBytes delim rest e in
        (b :: line, err, rest')
  end.

(** ** Results, jobs, the log *)

Record Result : Type := mkResult {
  fname : string;
  lino : Z;
  line : list byte
}.

(** The one [results] channel of a [grep] call, which every job refers to. *)
Inductive ResultsChan : Type := results_chan.

Record Job : Type := mkJob {
  job_fname : string;
  job_results : ResultsChan
}.

(** What [Job.Do] logs: [log.Printf] after a failed [os.Open] and after a
    read error that is not [io.EOF]. *)
Inductive LogLine : Type :=
| LogOpen (e : error)
| LogRead (e : error).

(** [if err != nil { log.Printf("error: %s\n", err) }] after [os.Open]. *)
Definition open_log (err : option error) : list LogLine :=
  match err with Some err => [LogOpen err] | None => [] end.

(** [if err != io.EOF { log.Printf("error: %d: %s\n", err) }] *)
Definition read_log (err : error) : list LogLine :=
  if is_EOF err then [] else [LogRead err].

(** [lineRx.Match], all that is used of a [*regexp.Regexp]. *)
Definition Regexp : Type := list byte -> bool.

(** ** Job.Do *)

Section Do.

Variable lineRx : Regexp.

(** The loop [for lino := 1; ; lino++ { ... }] of [Job.Do], on the input
    not read yet. It returns what was sent on [job.results] and what was
    logged; [None] when [fuel] iterations did not reach the [break]. *)
Fixpoint Do_loop (fuel : nat) (job : Job) (input : list byte) (e : error)
    (lino : Z) : option (list Result * list LogLine) :=
  match fuel with
  | O => None
  | S fuel' =>
      let '(line, err, rest) := ReadBytes NL input e in
      let line := TrimRight line [NL; CR] in
      let sent :=
        if lineRx line then [mkResult (job_fname job) lino line] else [] in
      match err with
      | Some err => Some (sent, read_log err)
      | None =>
          match Do_loop fuel' job rest e (GoInt.incr lino) with
          | Some (rs, lg) => Some (sent ++ rs, lg)
          | None => None
          end
      end
  end.

(** [Job.Do]. After a failed [os.Open] the error is logged and the body
    goes on with the nil file. The deferred [file.Close()] has no effect
    that is seen here. One iteration per byte of the file and one more are
    enough for the loop. *)
Definition Do (fs : FileSystem) (job : Job)
  : option (list Result * list LogLine) :=
  let '(file, err) := Open fs (job_fname job) in
  match Do_loop (S (List.length (content file))) job (content file)
                (failure file) 1 with
  | Some (rs, lg) => Some (rs, open_log err ++ lg)
  | None => None
  end.

End Do.

(** ** commandLineFiles *)

(** [filepath.Glob]: the matches ([None] for a nil slice) and the error. *)
Definition GlobFn : Type := string -> option (list string) * option error.

Fixpoint glob_args (Glob : GlobFn) (args fnames : list string) : list string :=
  match fnames with
  | [] => args
  | fname :: rest =>
      match Glob fname with
      | (_, Some _) => glob_args Glob (args ++ [fname]) rest
      | (Some matches, None) => glob_args Glob (args ++ matches) rest
      | (None, None) => glob_args Glob args rest
      end
  end.

Definition commandLineFiles (GOOS : string) (Glob : GlobFn)
    (fnames : list string) : list string :=
  if String.eqb GOOS "windows" then glob_args Glob [] fnames
  else fnames.

(** ** Channels *)

Module Chan.

(** A channel [make(chan A, cap)]: the values buffered, oldest first. *)
Record chan (A : Type) : Type := mkChan {
  buf : list A;
  cap : nat;
  closed : bool
}.
Arguments mkChan {A} _ _ _.
Arguments buf {A} _.
Arguments cap {A} _.
Arguments closed {A} _.

Definition make {A} (n : nat) : chan A := mkChan [] n false.

Inductive send_outcome (A : Type) : Type :=
| Sent (c : chan A)     (* the value is in the buffer *)
| SendBlocks            (* no room: the sender waits *)
| SendPanics.           (* send on closed channel *)
Arguments Sent {A} _.
Arguments SendBlocks {A}.
Arguments SendPanics {A}.

(** [c <- v] *)
Definition send {A} (c : chan A) (v : A) : send_outcome A :=
  if closed c then SendPanics
  else if (List.length (buf c) <? cap c)%nat
       then Sent (mkChan (buf c ++ [v]) (cap c) (closed c))
       else SendBlocks.

Inductive recv_outcome (A : Type) : Type :=
| Received (v : A) (c : chan A)
| RecvClosed            (* closed and drained: [range] ends *)
| RecvBlocks.           (* empty and open: the receiver waits *)
Arguments Received {A} _ _.
Arguments RecvClosed {A}.
Arguments RecvBlocks {A}.

(** [<-c] *)
Definition recv {A} (c : chan A) : recv_outcome A :=
  match buf c with
  | v :: rest => Received v (mkChan rest (cap c) (closed c))
  | [] => if closed c then RecvClosed else RecvBlocks
  end.

(** [close(c)]; [None] is the panic of closing a closed channel. *)
Definition close {A} (c : chan A) : option (chan A) :=
  if closed c then None else Some (mkChan (buf c) (cap c) true).

End Chan.

Import Chan.

(** ** grep *)

(** The goroutine of lines 78-83: the file names still to submit, then
    [close(jobs)]. *)
Inductive dispatcher : Type :=
| DSend (rest : list string)
| DExit.

(** A goroutine of lines 88-95. The file of a job is read when the job is
    taken: a worker in [job.Do] holds the results it has still to send.
    What the job logs is left out. *)
Inductive worker : Type :=
| WRange                          (* at [for job := range jobs] *)
| WDo (pending : list Result)     (* in [job.Do], these sends still to do *)
| WDone                           (* at [done <- struct{}{}] *)
| WExit.

(** The goroutine of lines 100-105, with its counter [i]. *)
Inductive aggregator : Type :=
| AWait (i : nat)
| AExit.

(** The goroutine that called [grep]. *)
Inductive caller : Type :=
| MGoDispatcher                   (* at line 78 *)
| MGoWorkers (i : nat)            (* at line 87, with its counter [i] *)
| MGoAggregator                   (* at line 100 *)
| MRange                          (* at [for result := range results] *)
| MReturn.

Record state : Type := mkState {
  jobs : chan Job;
  results : chan Result;
  done : chan unit;
  disp : option dispatcher;       (* [None]: not started yet *)
  workers : list worker;          (* the workers started so far *)
  aggr : option aggregator;
  stdout : list Result;           (* the results printed, in order *)
  main : caller
}.

Section Grep.

Variable cntWorkers : nat.
Variable lineRx : Regexp.
Variable fs : FileSystem.
Variable fnames : list string.

(** The three [make]s of lines 69-73; nothing runs but the caller. *)
Definition init : state :=
  mkState (make cntWorkers) (make (List.length fnames)) (make cntWorkers)
          None [] None [] MGoDispatcher.

(** One step of one goroutine. A goroutine whose channel operation would
    block has no step. No rule hands a value over to a waiting receiver
    without the buffer: with a buffer that is a send and a receive here,
    and the channels of [grep] that have none are not used by a sender and
    a receiver (the capacity of [jobs] and [done] is the number of
    workers, that of [results] the number of jobs). *)
Inductive step : state -> state -> Prop :=
(* the caller *)
| step_go_dispatcher j r d ws ag out :
    step (mkState j r d None ws ag out MGoDispatcher)
         (mkState j r d (Some (DSend fnames)) ws ag out (MGoWorkers 0))
| step_go_worker j r d dp ws ag out i :
    (i < cntWorkers)%nat ->
    step (mkState j r d dp ws ag out (MGoWorkers i))
         (mkState j r d dp (ws ++ [WRange]) ag out (MGoWorkers (S i)))
| step_go_workers_end j r d dp ws ag out i :
    ~ (i < cntWorkers)%nat ->
    step (mkState j r d dp ws ag out (MGoWorkers i))
         (mkState j r d dp ws ag out MGoAggregator)
| step_go_aggregator j r d dp ws out :
    step (mkState j r d dp ws None out MGoAggregator)
         (mkState j r d dp ws (Some (AWait 0)) out MRange)
| step_print j r d dp ws ag out v r' :
    recv r = Received v r' ->
    step (mkState j r d dp ws ag out MRange)
         (mkState j r' d dp ws ag (out ++ [v]) MRange)
| step_return j r d dp ws ag out :
    recv r = RecvClosed ->
    step (mkState j r d dp ws ag out MRange)
         (mkState j r d dp ws ag out MReturn)
(* the dispatcher *)
| step_submit j r d ws ag out mn fname rest j' :
    send j (mkJob fname results_chan) = Sent j' ->
    step (mkState j r d (Some (DSend (fname :: rest))) ws ag out mn)
         (mkState j' r d (Some (DSend rest)) ws ag out mn)
| step_close_jobs j r d ws ag out mn j' :
    close j = Some j' ->
    step (mkState j r d (Some (DSend [])) ws ag out mn)
         (mkState j' r d (Some DExit) ws ag out mn)
(* a worker *)
| step_take_job j r d dp ws1 ws2 ag out mn job j' rs lg :
    recv j = Received job j' ->
    Do lineRx fs job = Some (rs, lg) ->
    step (mkState j r d dp (ws1 ++ WRange :: ws2) ag out mn)
         (mkState j' r d dp (ws1 ++ WDo rs :: ws2) ag out mn)
| step_no_job j r d dp ws1 ws2 ag out mn :
    recv j = RecvClosed ->
    step (mkState j r d dp (ws1 ++ WRange :: ws2) ag out mn)
         (mkState j r d dp (ws1 ++ WDone :: ws2) ag out mn)
| step_send_result j r d dp ws1 ws2 ag out mn v rs r' :
    send r v = Sent r' ->
    step (mkState j r d dp (ws1 ++ WDo (v :: rs) :: ws2) ag out mn)
         (mkState j r' d dp (ws1 ++ WDo rs :: ws2) ag out mn)
| step_do_returns j r d dp ws1 ws2 ag out mn :
    step (mkState j r d dp (ws1 ++ WDo [] :: ws2) ag out mn)
         (mkState j r d dp (ws1 ++ WRange :: ws2) ag out mn)
| step_signal_done j r d dp ws1 ws2 ag out mn d' :
    send d tt = Sent d' ->
    step (mkState j r d dp (ws1 ++ WDone :: ws2) ag out mn)
         (mkState j r d' dp (ws1 ++ WExit :: ws2) ag out mn)
(* the aggregator *)
| step_wait_done j r d dp ws out mn i v d' :
    (i < cntWorkers)%nat ->
    recv d = Received v d' ->
    step (mkState j r d dp ws (Some (AWait i)) out mn)
         (mkState j r d' dp ws (Some (AWait (S i))) out mn)
| step_wait_closed j r d dp ws out mn i :
    (i < cntWorkers)%nat ->
    recv d = RecvClosed ->
    step (mkState j r d dp ws (Some (AWait i)) out mn)
         (mkState j r d dp ws (Some (AWait (S i))) out mn)
| step_close_results j r d dp ws out mn i r' :
    ~ (i < cntWorkers)%nat ->
    close r = Some r' ->
    step (mkState j r d dp ws (Some (AWait i)) out mn)
         (mkState j r' d dp ws (Some AExit) out mn).

(** The states [grep] can be in. *)
Inductive reachable : state -> Prop :=
| reach_init : reachable init
| reach_step s s' : reachable s -> step s s' -> reachable s'.

(** A goroutine is about to panic: a send on a closed channel, or the
    close of a closed channel. *)
Definition worker_panics (s : state) (w : worker) : Prop :=
  match w with
  | WDo (v :: _) => send (results s) v = SendPanics
  | WDone => send (done s) tt = SendPanics
  | _ => False
  end.

Definition panics (s : state) : Prop :=
  (exists fname rest, disp s = Some (DSend (fname :: rest)) /\
      send (jobs s) (mkJob fname results_chan) = SendPanics)
  \/ (disp s = Some (DSend []) /\ close (jobs s) = None)
  \/ (exists w, In w (workers s) /\ worker_panics s w)
  \/ (exists i, aggr s = Some (AWait i) /\ ~ (i < cntWorkers)%nat /\
        close (results s) = None).

(** [grep] has returned, [results] is closed and drained, and every
    goroutine it started has ended. *)
Definition finished (s : state) : Prop :=
  main s = MReturn /\
  closed (results s) = true /\ buf (results s) = [] /\
  disp s = Some DExit /\
  List.length (workers s) = cntWorkers /\
  Forall (fun w => w = WExit) (workers s) /\
  aggr s = Some AExit.

(** [P] is reached on every schedule: it holds now, or a step is possible
    and [P] is reached whatever step is taken. *)
Inductive inevitable (P : state -> Prop) : state -> Prop :=
| inev_now s : P s -> inevitable P s
| inev_step s :
    (exists s', step s s') ->
    (forall s', step s s' -> inevitable P s') ->
    inevitable P s.

(** What the job of a file sends on [results]. *)
Definition sends_of (fname : string) : list Result :=
  match Do lineRx fs (mkJob fname results_chan) with
  | Some (rs, _) => rs
  | None => []
  end.

End Grep.

(** ** The lines of a file *)

(** The lines [ReadBytes('\n')] returns one after the other until the
    error: each line with its ['\n'], then the bytes after the last ['\n'],
    which may be none. *)
Fixpoint reads (input : list byte) : list (list byte) :=
  match input with
  | [] => [[]]
  | b :: rest =>
      if Byte.eqb b NL then [b] :: reads rest
      else match reads rest with
           | l :: ls => (b :: l) :: ls
           | [] => [[b]]
           end
  end.

(** The lines of a text: each line with its ['\n'], and the bytes after the
    last ['\n'] as a last line when there are any. The empty text has no
    line, ["a\nb\n"] has two, ["a\nb"] has two. *)
Fixpoint lines (text : list byte) : list (list byte) :=
  match text with
  | [] => []
  | b :: rest =>
      if Byte.eqb b NL then [b] :: lines rest
      else match lines rest with
           | l :: ls => (b :: l) :: ls
           | [] => [[b]]
           end
  end.

(** A line without its trailing line terminators. *)
Definition strip (l : list byte) : list byte := TrimRight l [NL; CR].

(** The matches of the raw lines [ls], numbered from [n] on. *)
Fixpoint matches (lineRx : Regexp) (f : string) (n : Z)
    (ls : list (list byte)) : list Result :=
  match ls with
  | [] => []
  | l :: ls' =>
      (if lineRx (strip l) then [mkResult f n (strip l)] else [])
        ++ matches lineRx f (n + 1) ls'
  end.

(** The same with the line number an [int]. *)
Fixpoint matches_int (lineRx : Regexp) (f : string) (n : Z)
    (ls : list (list byte)) : list Result :=
  match ls with
  | [] => []
  | l :: ls' =>
      (if lineRx (strip l) then [mkResult f n (strip l)] else [])
        ++ matches_int lineRx f (GoInt.incr n) ls'
  end.

(** [out] is an interleaving of the lists [ls]: it takes every element of
    every list, those of one list in their order. *)
Inductive interleave {A : Type} : list (list A) -> list A -> Prop :=
| interleave_nil ls : Forall (fun l => l = []) ls -> interleave ls []
| interleave_cons ls1 x xs ls2 out :
    interleave (ls1 ++ xs :: ls2) out ->
    interleave (ls1 ++ (x :: xs) :: ls2) (x :: out).

(** A file short enough for its line numbers to be [int]s. *)
Definition fits (f : File) : Prop :=
  Z.of_nat (List.length (content f)) < GoInt.MaxInt.

(** The bytes of [l] end with a line terminator. *)
Definition ends_with_terminator (l : list byte) : Prop :=
  exists l' b, l = l' ++ [b] /\ (b = NL \/ b = CR).

(** ** The invariant of grep and its termination measure *)

Section GrepInvariant.

Variable cntWorkers : nat.
Variable lineRx : Regexp.
Variable fs : FileSystem.
Variable fnames : list string.

(** The sends a worker still has to do in its [job.Do]. *)
Definition pending (w : worker) : list Result :=
  match w with
  | WDo rs => rs
  | _ => []
  end.

(** The file names the dispatcher has not submitted yet. *)
Definition remaining (dp : option dispatcher) : list string :=
  match dp with
  | None => fnames
  | Some (DSend rest) => rest
  | Some DExit => []
  end.

Definition is_exit (w : worker) : bool :=
  match w with
  | WExit => true
  | _ => false
  end.

(** The number of workers that have ended. *)
Definition exited (ws : list worker) : nat :=
  List.length (filter is_exit ws).

(** The number of signals the aggregator has taken from [done]. *)
Definition received (ag : option aggregator) : nat :=
  match ag with
  | None => 0
  | Some (AWait i) => i
  | Some AExit => cntWorkers
  end.

(** What is still to be sent on [results], a list for each worker and for
    each job that no worker has taken yet. *)
Definition left_to_send (s : state) : list (list Result) :=
  map pending (workers s) ++
  map (sends_of lineRx fs) (map job_fname (buf (jobs s)) ++ remaining (disp s)).

Definition all_sends : list (list Result) := map (sends_of lineRx fs) fnames.

Record invariant (s : state) : Prop := mkInvariant {
  inv_caps :
    cap (jobs s) = cntWorkers /\ cap (results s) = List.length fnames /\
    cap (done s) = cntWorkers;
  inv_done_open : closed (done s) = false;
  inv_main :
    match main s with
    | MGoDispatcher => disp s = None /\ workers s = [] /\ aggr s = None
    | MGoWorkers i =>
        disp s <> None /\ List.length (workers s) = i /\
        (i <= cntWorkers)%nat /\ aggr s = None
    | MGoAggregator =>
        disp s <> None /\ List.length (workers s) = cntWorkers /\
        aggr s = None
    | MRange =>
        disp s <> None /\ List.length (workers s) = cntWorkers /\
        aggr s <> None
    | MReturn =>
        disp s <> None /\ List.length (workers s) = cntWorkers /\
        aggr s <> None /\
        closed (results s) = true /\ buf (results s) = []
    end;
  inv_jobs_closed : closed (jobs s) = true <-> disp s = Some DExit;
  inv_signals :
    (received (aggr s) + List.length (buf (done s)))%nat = exited (workers s);
  inv_aggr_count :
    forall i, aggr s = Some (AWait i) -> (i <= cntWorkers)%nat;
  inv_results_closed : closed (results s) = true <-> aggr s = Some AExit;
  inv_all_exited :
    aggr s = Some AExit -> Forall (fun w => w = WExit) (workers s);
  inv_drained :
    Exists (fun w => w = WDone \/ w = WExit) (workers s) ->
    closed (jobs s) = true /\ buf (jobs s) = [];
  inv_no_jobs :
    fnames = [] ->
    remaining (disp s) = [] /\ buf (jobs s) = [] /\
    Forall (fun w => pending w = []) (workers s);
  inv_data :
    forall out, interleave (left_to_send s) out ->
    interleave all_sends (stdout s ++ buf (results s) ++ out)
}.

(** The termination measure: every step of every goroutine lowers it. *)
Definition job_weight (f : string) : nat :=
  2 * List.length (sends_of lineRx fs f) + 2.

Definition disp_weight (dp : option dispatcher) : nat :=
  match dp with
  | Some DExit => 0
  | _ => 1 + list_sum (map (fun f => S (job_weight f)) (remaining dp))
  end.

Definition worker_weight (w : worker) : nat :=
  match w with
  | WRange => 3
  | WDo rs => 2 * List.length rs + 4
  | WDone => 2
  | WExit => 0
  end.

Definition aggr_weight (ag : option aggregator) : nat :=
  match ag with
  | None => 1 + cntWorkers
  | Some (AWait i) => 1 + (cntWorkers - i)
  | Some AExit => 0
  end.

Definition main_weight (mn : caller) : nat :=
  match mn with
  | MGoDispatcher => 4 + 4 * cntWorkers
  | MGoWorkers i => 3 + 4 * (cntWorkers - i)
  | MGoAggregator => 2
  | MRange => 1
  | MReturn => 0
  end.

Definition measure (s : state) : nat :=
  main_weight (main s) + disp_weight (disp s) +
  list_sum (map worker_weight (workers s)) + aggr_weight (aggr s) +
  list_sum (map (fun j => job_weight (job_fname j)) (buf (jobs s))) +
  List.length (buf (results s)) + List.length (buf (done s)).

End GrepInvariant.

(** ** Example inputs *)

Module Examples.

(** The regexp with the empty pattern: it matches every line. *)
Definition rx_any : Regexp := fun _ => true.

(** The regexp [x]: it matches the lines with an [x]. *)
Definition rx_x : Regexp := fun l => contains l "x"%byte.

Definition io_error : error := Err "input/output error".
Definition no_such_file : error := Err "no such file or directory".

(** [empty.txt] is empty, [a.txt] is one line with its newline, [b.txt]
    has a last line without newline, [crlf.txt] has two DOS lines,
    [broken.txt] fails in its second line; nothing else can be opened. *)
Definition files : FileSystem := fun name : string =>
  if String.eqb name "empty.txt" then inl (mkFile [] EOF)
  else if String.eqb name "a.txt" then inl (mkFile (bytes "x" ++ [NL]) EOF)
  else if String.eqb name "b.txt" then
    inl (mkFile (bytes "ax" ++ [NL] ++ bytes "yz" ++ [NL] ++ bytes "xb") EOF)
  else if String.eqb name "crlf.txt" then
    inl (mkFile (bytes "x" ++ [CR; NL] ++ bytes "xx" ++ [CR; CR; NL]) EOF)
  else if String.eqb name "broken.txt" then
    inl (mkFile (bytes "ab" ++ [NL] ++ bytes "cd") io_error)
  else inr no_such_file.

Definition job (name : string) : Job := mkJob name results_chan.

Arguments files _%_string.

Definition no_glob : GlobFn := fun _ => (None, None).

End Examples.

(** ** main *)

(** How [main] ends. *)
Inductive Outcome : Type :=
| Usage (prog : string)       (* the usage line is printed, [os.Exit(1)] *)
| InvalidRegexp (err : error) (* [log.Fatalf("invalid regexp: %s\n", err)] *)
| Grep (lineRx : Regexp) (fnames : list string)
                              (* [grep(lineRx, fnames)] is run *)
| IndexOutOfRange.            (* the panic of [os.Args[i]], [i >= len] *)

Section Main.

Variable GOOS : string.                       (* runtime.GOOS *)
Variable Glob : GlobFn.                       (* filepath.Glob *)
Variable Compile : string -> Regexp + error.  (* regexp.Compile *)
Variable Base : string -> string.             (* filepath.Base *)

(** Lines 142-143. *)
Definition usage (Args : list string) : Outcome :=
  match nth_error Args 0 with
  | Some prog => Usage (Base prog)
  | None => IndexOutOfRange
  end.

(** [main], from [os.Args]. The [||] of line 141 looks at [os.Args[1]]
    only when [len(os.Args) < 3] is false. *)
Definition main_of (Args : list string) : Outcome :=
  if (List.length Args <? 3)%nat then usage Args
  else
    match nth_error Args 1 with
    | None => IndexOutOfRange
    | Some pattern =>
        if String.eqb pattern "-h" || String.eqb pattern "--help"
        then usage Args
        else
          match Compile pattern with
          | inr err => InvalidRegexp err
          | inl lineRx =>
              Grep lineRx (commandLineFiles GOOS Glob (skipn 2 Args))
          end
    end.

End Main.

(** ** The output of grep *)

(** The verb [%d], for an [int]. *)
Definition format_int (z : Z) : list byte :=
  list_byte_of_string (DecimalString.NilEmpty.string_of_int (Z.to_int z)).

(** What [fmt.Printf("%s:%d:%s\n", result.fname, result.lino,
    result.line)] writes. *)
Definition Printf_result (result : Result) : list byte :=
  bytes (fname result) ++ bytes ":" ++ format_int (lino result) ++
  bytes ":" ++ line result ++ [NL].

(** Standard output when the results [out] have been printed. *)
Definition output (out : list Result) : list byte :=
  concat (map Printf_result out).

(** ** Statements about Job.Do, commandLineFiles and grep *)

(** The text with DOS line ends: a ['\r'] before every ['\n']. *)
Definition unix2dos (text : list byte) : list byte :=
  flat_map (fun b => if Byte.eqb b NL then [CR; NL] else [b]) text.

(** The number of newlines of a text. *)
Definition newlines (text : list byte) : nat :=
  List.length (filter (fun b => Byte.eqb b NL) text).

(** What one pass of the loop of [commandLineFiles] appends to [args]. *)
Definition expand (Glob : GlobFn) (fname : string) : list string :=
  match Glob fname with
  | (_, Some _) => [fname]
  | (Some matches, None) => matches
  | (None, None) => []
  end.

(** What is printed, then what waits in [results], then what is still to
    be sent, worker after worker and job after job. *)
Definition in_order (lineRx : Regexp) (fs : FileSystem)
    (fnames : list string) (s : state) : list Result :=
  stdout s ++ buf (results s) ++ concat (left_to_send lineRx fs fnames s).

(** A run of [k] steps of [grep]. *)
Inductive steps (cntWorkers : nat) (lineRx : Regexp) (fs : FileSystem)
    (fnames : list string) : nat -> state -> state -> Prop :=
| steps_O s : steps cntWorkers lineRx fs fnames 0 s s
| steps_S k s s' s'' :
    step cntWorkers lineRx fs fnames s s' ->
    steps cntWorkers lineRx fs fnames k s' s'' ->
    steps cntWorkers lineRx fs fnames (S k) s s''.

(** More example inputs. *)
Module MoreExamples.

(** [filepath.Glob] in a directory with [a.txt] and [b.txt]: ["*.txt"]
    matches both, a name without pattern matches itself when the file
    exists, ["["] is not a valid pattern. *)
Definition glob_ab : GlobFn := fun name : string =>
  if String.eqb name "*.txt" then (Some ["a.txt"; "b.txt"]%string, None)
  else if String.eqb name "a.txt" then (Some ["a.txt"%string], None)
  else if String.eqb name "b.txt" then (Some ["b.txt"%string], None)
  else if String.eqb name "[" then (None, Some (Err "syntax error in pattern"))
  else (None, None).

(** [regexp.Compile] for the patterns of the examples. *)
Definition compile : string -> Regexp + error := fun pattern : string =>
  if String.eqb pattern "" then inl Examples.rx_any
  else if String.eqb pattern "x" then inl Examples.rx_x
  else inr (Err "error parsing regexp").

(** [filepath.Base] of the program names of the examples. *)
Definition base : string -> string := fun path : string =>
  if String.eqb path "/usr/bin/cgrep" then "cgrep"%string else path.

(** [b.txt] of the examples with DOS line ends, the other files as they
    are. *)
Definition dos_files : FileSystem := fun name : string =>
  if String.eqb name "b.txt" then
    inl (mkFile (unix2dos (bytes "ax" ++ [NL] ++ bytes "yz" ++ [NL] ++ bytes "xb"))
                EOF)
  else Examples.files name.

(** The end of a run of [grep] with one worker, on [a.txt] and the pattern
    [x]. *)
Definition run_end : state :=
  mkState (mkChan [] 1 true) (mkChan [] 1 true) (mkChan [] 1 false)
          (Some DExit) [WExit] (Some AExit)
          [mkResult "a.txt" 1 (bytes "x")] MReturn.

End MoreExamples.

(** * Facts about the sequential parts *)

Lemma GoInt_wrap_small (z : Z) :
  GoInt.MinInt <= z <= GoInt.MaxInt -> GoInt.wrap z = z.
Proof.
  unfold GoInt.wrap, GoInt.MinInt, GoInt.MaxInt. intros H.
  rewrite Z.mod_small; lia.
Qed.

Lemma GoInt_incr_small (i : Z) :
  GoInt.MinInt <= i < GoInt.MaxInt -> GoInt.incr i = i + 1.
Proof.
  intros H. unfold GoInt.incr. apply GoInt_wrap_small. lia.
Qed.

Lemma byte_eqb_eq (a b : byte) : Byte.eqb a b = true <-> a = b.
Proof.
  split; [apply Byte.byte_dec_bl | apply Byte.byte_dec_lb].
Qed.

(** ** TrimRight *)

Lemma dropWhile_app_all {A} (p : A -> bool) (l r : list A) :
  Forall (fun x => p x = true) l -> dropWhile p (l ++ r) = dropWhile p r.
Proof.
  induction 1 as [|x l Hx _ IH]; simpl; [reflexivity|].
  now rewrite Hx.
Qed.

Lemma dropWhile_head {A} (p : A -> bool) (l : list A) x r :
  dropWhile p l = x :: r -> p x = false.
Proof.
  induction l as [|y l IH]; simpl; [discriminate|].
  destruct (p y) eqn:E; [exact IH|].
  intros H. injection H as -> _. exact E.
Qed.

Lemma TrimRight_app_cut s t cut :
  Forall (fun b => contains cut b = true) t ->
  TrimRight (s ++ t) cut = TrimRight s cut.
Proof.
  intros H. unfold TrimRight. rewrite rev_app_distr.
  rewrite dropWhile_app_all; [reflexivity|].
  now apply Forall_rev.
Qed.

Lemma TrimRight_keeps s b cut :
  contains cut b = false -> TrimRight (s ++ [b]) cut = s ++ [b].
Proof.
  intros H. unfold TrimRight. rewrite rev_app_distr. simpl. rewrite H.
  simpl. now rewrite rev_involutive.
Qed.

Lemma TrimRight_last s cut s' b :
  TrimRight s cut = s' ++ [b] -> contains cut b = false.
Proof.
  unfold TrimRight. intros H.
  apply (f_equal (@rev byte)) in H.
  rewrite rev_involutive, rev_app_distr in H. simpl in H.
  exact (dropWhile_head _ _ _ _ H).
Qed.

Lemma contains_terminators b :
  contains [NL; CR] b = true <-> b = NL \/ b = CR.
Proof.
  simpl. rewrite !orb_true_iff, !byte_eqb_eq. intuition discriminate.
Qed.

Lemma strip_not_terminated l : ~ ends_with_terminator (strip l).
Proof.
  intros (l' & b & E & Hb). unfold strip in E.
  apply TrimRight_last in E. apply contains_terminators in Hb. congruence.
Qed.

(** ** reads, lines and ReadBytes *)

Lemma lines_not_nil b rest : lines (b :: rest) <> [].
Proof.
  simpl. destruct (Byte.eqb b NL); [discriminate|].
  destruct (lines rest); discriminate.
Qed.

Lemma reads_length input :
  (List.length (reads input) <= S (List.length input))%nat.
Proof.
  induction input as [|b rest IH]; simpl; [lia|].
  destruct (Byte.eqb b NL); simpl; [lia|].
  destruct (reads rest); simpl in *; lia.
Qed.

(** A text without newline is read in one piece. *)
Lemma reads_no_NL final : ~ In NL final -> reads final = [final].
Proof.
  induction final as [|b rest IH]; simpl; intros H; [reflexivity|].
  destruct (Byte.eqb b NL) eqn:E.
  - apply byte_eqb_eq in E. tauto.
  - rewrite IH by tauto. reflexivity.
Qed.

(** The reads of a text are the lines up to its last newline, and then
    what follows this newline. *)
Lemma reads_app_NL body final :
  ~ In NL final ->
  reads (body ++ NL :: final) = lines (body ++ [NL]) ++ [final].
Proof.
  intros H. induction body as [|b rest IH].
  - simpl. now rewrite reads_no_NL.
  - change ((b :: rest) ++ NL :: final) with (b :: (rest ++ NL :: final)).
    change ((b :: rest) ++ [NL]) with (b :: (rest ++ [NL])).
    simpl. rewrite IH. destruct (Byte.eqb b NL); [reflexivity|].
    destruct (lines (rest ++ [NL])) as [|l ls] eqn:E; [|reflexivity].
    destruct rest; simpl in E.
    + discriminate.
    + exfalso. revert E. apply lines_not_nil.
Qed.

(** A text without newline is one line, unless it is empty. *)
Lemma lines_no_NL final : final <> [] -> ~ In NL final -> lines final = [final].
Proof.
  induction final as [|c l IH]; [congruence|]. intros _ Hc. simpl in *.
  destruct (Byte.eqb c NL) eqn:E.
  - apply byte_eqb_eq in E. tauto.
  - destruct l as [|c' l]; [reflexivity|].
    rewrite IH; [reflexivity|discriminate|tauto].
Qed.

(** The lines of a text with a last line that has no newline. *)
Lemma lines_app_NL body final :
  final <> [] -> ~ In NL final ->
  lines (body ++ NL :: final) = lines (body ++ [NL]) ++ [final].
Proof.
  intros Hne H. induction body as [|b rest IH].
  - simpl. f_equal. now apply lines_no_NL.
  - change ((b :: rest) ++ NL :: final) with (b :: (rest ++ NL :: final)).
    change ((b :: rest) ++ [NL]) with (b :: (rest ++ [NL])).
    simpl. rewrite IH. destruct (Byte.eqb b NL); [reflexivity|].
    destruct (lines (rest ++ [NL])) as [|l ls] eqn:E; [|reflexivity].
    destruct rest; simpl in E.
    + discriminate.
    + exfalso. revert E. apply lines_not_nil.
Qed.

Lemma ReadBytes_line input e l rest :
  ReadBytes NL input e = (l, None, rest) ->
  reads input = l :: reads rest /\
  (List.length rest < List.length input)%nat.
Proof.
  revert l rest. induction input as [|b input IH]; simpl; intros l rest H.
  - discriminate.
  - destruct (Byte.eqb b NL).
    + injection H as <- <-. split; [reflexivity|lia].
    + destruct (ReadBytes NL input e) as [[l' err'] rest'] eqn:E.
      injection H as <- -> <-.
      destruct (IH _ _ eq_refl) as [-> Hlen]. split; [reflexivity|lia].
Qed.

Lemma ReadBytes_error input e l err rest :
  ReadBytes NL input e = (l, Some err, rest) ->
  reads input = [l] /\ err = e.
Proof.
  revert l rest. induction input as [|b input IH]; simpl; intros l rest H.
  - injection H as <- <- _. split; reflexivity.
  - destruct (Byte.eqb b NL); [discriminate|].
    destruct (ReadBytes NL input e) as [[l' err'] rest'] eqn:E.
    injection H as <- -> <-.
    destruct (IH _ _ eq_refl) as [-> ->]. split; reflexivity.
Qed.

(** ** The results of Job.Do *)

Lemma matches_app rx f n l1 l2 :
  matches rx f n (l1 ++ l2) =
  matches rx f n l1 ++ matches rx f (n + Z.of_nat (List.length l1)) l2.
Proof.
  revert n. induction l1 as [|l l1 IH]; intros n.
  - simpl. now rewrite Z.add_0_r.
  - cbn [matches app List.length]. rewrite IH, <- app_assoc.
    do 3 f_equal. lia.
Qed.

(** As long as the line numbers stay below [MaxInt], [lino++] adds one. *)
Lemma matches_int_small rx f ls : forall n,
  GoInt.MinInt <= n ->
  n + Z.of_nat (List.length ls) <= GoInt.MaxInt + 1 ->
  matches_int rx f n ls = matches rx f n ls.
Proof.
  induction ls as [|l ls IH]; intros n Hlo Hhi; [reflexivity|].
  cbn [matches_int matches]. f_equal.
  destruct ls as [|l' ls]; [reflexivity|].
  cbn [List.length] in Hhi.
  rewrite GoInt_incr_small by lia.
  apply IH; cbn [List.length]; lia.
Qed.

Lemma matches_from rx f ls : forall n,
  Forall (fun r => n <= lino r) (matches rx f n ls).
Proof.
  induction ls as [|l ls IH]; intros n; cbn [matches]; [constructor|].
  apply Forall_app. split.
  - destruct (rx (strip l)); constructor; [simpl; lia|constructor].
  - eapply Forall_impl; [|apply (IH (n + 1))]. simpl. intros; lia.
Qed.

Lemma matches_sorted rx f ls : forall n,
  StronglySorted (fun a b => lino a < lino b) (matches rx f n ls).
Proof.
  induction ls as [|l ls IH]; intros n; cbn [matches]; [constructor|].
  destruct (rx (strip l)); simpl; [|apply IH].
  constructor; [apply IH|].
  eapply Forall_impl; [|apply (matches_from rx f ls (n + 1))].
  simpl. intros; lia.
Qed.

Lemma matches_int_In rx f ls : forall n r,
  In r (matches_int rx f n ls) ->
  fname r = f /\ rx (line r) = true /\ exists raw, In raw ls /\ line r = strip raw.
Proof.
  induction ls as [|l ls IH]; intros n r; cbn [matches_int]; [intros []|].
  rewrite in_app_iff. intros [H|H].
  - destruct (rx (strip l)) eqn:E; [|destruct H].
    destruct H as [<-|[]]. simpl. repeat split; try assumption.
    exists l. split; [apply in_eq|reflexivity].
  - destruct (IH _ _ H) as (H1 & H2 & raw & H3 & H4).
    repeat split; try assumption.
    exists raw. split; [now apply in_cons|assumption].
Qed.

(** The loop reaches its [break] within the fuel [Do] gives it, and sends
    the matches of the lines [ReadBytes] returned. *)
Lemma Do_loop_reads rx job : forall fuel input e n,
  (List.length input < fuel)%nat ->
  Do_loop rx fuel job input e n =
  Some (matches_int rx (job_fname job) n (reads input), read_log e).
Proof.
  induction fuel as [|fuel IH]; intros input e n Hfuel; [lia|].
  cbn [Do_loop].
  destruct (ReadBytes NL input e) as [[l err] rest] eqn:E.
  destruct err as [err|].
  - destruct (ReadBytes_error _ _ _ _ _ E) as [-> ->].
    cbn [matches_int]. now rewrite app_nil_r.
  - destruct (ReadBytes_line _ _ _ _ E) as [-> Hlen].
    rewrite IH by lia. reflexivity.
Qed.

Lemma Do_reads rx fs job file err :
  Open fs (job_fname job) = (file, err) ->
  Do rx fs job =
  Some (matches_int rx (job_fname job) 1 (reads (content file)),
        open_log err ++ read_log (failure file)).
Proof.
  intros H. unfold Do. rewrite H.
  rewrite Do_loop_reads by lia. reflexivity.
Qed.

(** [Job.Do] returns. *)
Lemma Do_total rx fs job : exists rs lg, Do rx fs job = Some (rs, lg).
Proof.
  destruct (Open fs (job_fname job)) as [file err] eqn:E.
  rewrite (Do_reads _ _ _ _ _ E). eauto.
Qed.

Lemma Do_fits rx fs job file err :
  Open fs (job_fname job) = (file, err) -> fits file ->
  Do rx fs job =
  Some (matches rx (job_fname job) 1 (reads (content file)),
        open_log err ++ read_log (failure file)).
Proof.
  intros H Hfits. rewrite (Do_reads _ _ _ _ _ H).
  rewrite matches_int_small; [reflexivity| |].
  - unfold GoInt.MinInt. lia.
  - unfold fits in Hfits. pose proof (reads_length (content file)). lia.
Qed.

Lemma Open_ok fs name file : fs name = inl file -> Open fs name = (file, None).
Proof. unfold Open. now intros ->. Qed.

Lemma Open_fails fs name err :
  fs name = inr err -> Open fs name = (nilFile, Some err).
Proof. unfold Open. now intros ->. Qed.

(** After a failed [os.Open], [Job.Do] still tests the empty line the nil
    file gives it. *)
Lemma Do_open_failure rx fs job err :
  fs (job_fname job) = inr err ->
  Do rx fs job =
  Some (if rx [] then [mkResult (job_fname job) 1 []] else [],
        [LogOpen err; LogRead ErrInvalid]).
Proof.
  intros H. rewrite (Do_reads _ _ _ _ _ (Open_fails _ _ _ H)).
  simpl. change (strip []) with (@nil byte).
  destruct (rx []); reflexivity.
Qed.

(** An empty file is read as one empty line. *)
Lemma Do_empty_file rx fs job e :
  fs (job_fname job) = inl (mkFile [] e) ->
  Do rx fs job =
  Some (if rx [] then [mkResult (job_fname job) 1 []] else [], read_log e).
Proof.
  intros H. rewrite (Do_reads _ _ _ _ _ (Open_ok _ _ _ H)).
  simpl. change (strip []) with (@nil byte).
  destruct (rx []); reflexivity.
Qed.

(** A file that ends after [body], whole lines, and [final], without
    newline: the lines of [body] are numbered from 1 on, and [final] gets
    the next number. *)
Lemma Do_body_final rx fs job file body final :
  fs (job_fname job) = inl file -> fits file ->
  content file = body ++ final ->
  (body = [] \/ exists body', body = body' ++ [NL]) ->
  ~ In NL final ->
  Do rx fs job =
  Some (matches rx (job_fname job) 1 (lines body) ++
        (if rx (strip final)
         then [mkResult (job_fname job)
                 (Z.of_nat (List.length (lines body)) + 1) (strip final)]
         else []),
        read_log (failure file)).
Proof.
  intros Hfs Hfits Hc Hbody Hfinal.
  rewrite (Do_fits _ _ _ _ _ (Open_ok _ _ _ Hfs) Hfits). rewrite Hc.
  assert (R : reads (body ++ final) = lines body ++ [final]).
  { destruct Hbody as [->|[body' ->]].
    - simpl. now apply reads_no_NL.
    - rewrite <- app_assoc. simpl. now apply reads_app_NL. }
  rewrite R, matches_app. cbn [matches open_log app].
  rewrite app_nil_r, (Z.add_comm 1). reflexivity.
Qed.

(** * Job.Do: the properties of the specification *)

Import Examples.

(** C2, at the failing input. [empty.txt] has no line, and the pattern
    matches every line: [Job.Do] still sends one match, for a line 1 with
    empty content, because it tests the empty read at end of input. *)
Theorem empty_file_yields_a_match :
  files "empty.txt" = inl (mkFile [] EOF) /\
  lines [] = [] /\
  Do rx_any files (job "empty.txt") =
  Some ([mkResult "empty.txt" 1 []], []).
Proof.
  repeat split.
Qed.




(** C4, at the failing input. [missing.txt] cannot be opened, and the
    pattern matches the empty line: [Job.Do] logs the error, goes on with
    the nil file and sends one match, for a line 1 with empty content. *)
Theorem open_failure_yields_a_match :
  files "missing.txt" = inr no_such_file /\
  Do rx_any files (job "missing.txt") =
  Some ([mkResult "missing.txt" 1 []],
        [LogOpen no_such_file; LogRead ErrInvalid]).
Proof.
  split; reflexivity.
Qed.

(** C5. A file that is read to its end and whose last line [final] has no
    newline: [final] is a line of the file, it gets the number after those
    of the lines before it, which are numbered from 1 on, and it is tested:
    it is sent when its content matches. *)
Theorem last_line_without_newline rx fs job file body final :
  fs (job_fname job) = inl file -> fits file ->
  failure file = EOF ->
  content file = body ++ final ->
  (body = [] \/ exists body', body = body' ++ [NL]) ->
  final <> [] -> ~ In NL final ->
  lines (content file) = lines body ++ [final] /\
  Do rx fs job =
  Some (matches rx (job_fname job) 1 (lines body) ++
        (if rx (strip final)
         then [mkResult (job_fname job)
                 (Z.of_nat (List.length (lines body)) + 1) (strip final)]
         else []),
        []).
Proof.
  intros Hfs Hfits Hfail Hc Hbody Hne Hfinal. split.
  - rewrite Hc. destruct Hbody as [->|[body' ->]].
    + simpl. now apply lines_no_NL.
    + rewrite <- app_assoc. simpl. now apply lines_app_NL.
  - rewrite (Do_body_final rx fs job file body final) by assumption.
    rewrite Hfail. reflexivity.
Qed.

Lemma last_line_without_newline_witness :
  lines (bytes "ax" ++ [NL] ++ bytes "yz" ++ [NL] ++ bytes "xb") =
    lines (bytes "ax" ++ [NL] ++ bytes "yz" ++ [NL]) ++ [bytes "xb"] /\
  Do rx_x files (job "b.txt") =
  Some (matches rx_x "b.txt" 1 (lines (bytes "ax" ++ [NL] ++ bytes "yz" ++ [NL])) ++
        (if rx_x (strip (bytes "xb"))
         then [mkResult "b.txt"
                 (Z.of_nat (List.length
                    (lines (bytes "ax" ++ [NL] ++ bytes "yz" ++ [NL]))) + 1)
                 (strip (bytes "xb"))]
         else []),
        []).
Proof.
  apply (last_line_without_newline rx_x files (job "b.txt")
           (mkFile (bytes "ax" ++ [NL] ++ bytes "yz" ++ [NL] ++ bytes "xb") EOF)
           (bytes "ax" ++ [NL] ++ bytes "yz" ++ [NL]) (bytes "xb")).
  - reflexivity.
  - unfold fits. vm_compute. reflexivity.
  - reflexivity.
  - reflexivity.
  - right. exists (bytes "ax" ++ [NL] ++ bytes "yz"). reflexivity.
  - discriminate.
  - simpl. intuition discriminate.
Defined.

(** C6. [Job.Do] sends the matches of a file in the order its lines are
    read: their line numbers go strictly up. *)
Theorem matches_in_ascending_line_order rx fs job file err :
  Open fs (job_fname job) = (file, err) -> fits file ->
  exists rs lg,
    Do rx fs job = Some (rs, lg) /\
    rs = matches rx (job_fname job) 1 (reads (content file)) /\
    StronglySorted (fun a b => lino a < lino b) rs.
Proof.
  intros Hopen Hfits.
  exists (matches rx (job_fname job) 1 (reads (content file))).
  exists (open_log err ++ read_log (failure file)).
  split; [now apply Do_fits|]. split; [reflexivity|].
  apply matches_sorted.
Qed.

Lemma matches_in_ascending_line_order_witness :
  exists rs lg,
    Do rx_x files (job "b.txt") = Some (rs, lg) /\
    rs = matches rx_x "b.txt" 1
           (reads (bytes "ax" ++ [NL] ++ bytes "yz" ++ [NL] ++ bytes "xb")) /\
    StronglySorted (fun a b => lino a < lino b) rs.
Proof.
  apply (matches_in_ascending_line_order rx_x files (job "b.txt")
           (mkFile (bytes "ax" ++ [NL] ++ bytes "yz" ++ [NL] ++ bytes "xb") EOF)
           None).
  - reflexivity.
  - unfold fits. vm_compute. reflexivity.
Defined.

(** C8. [TrimRight] takes every trailing ['\n'] and ['\r'] off a line, in
    any number and order, and [Job.Do] matches and sends lines it has
    stripped so: the content of a result it sends matches the pattern and
    does not end with ['\n'] or ['\r']. *)
Theorem trailing_terminators_are_stripped :
  (forall body tail,
     Forall (fun b => b = NL \/ b = CR) tail ->
     ~ ends_with_terminator body ->
     TrimRight (body ++ tail) [NL; CR] = body) /\
  (forall rx fs job, exists rs lg,
     Do rx fs job = Some (rs, lg) /\
     Forall (fun r =>
       (exists raw, In raw (reads (content (fst (Open fs (job_fname job)))))
                    /\ line r = TrimRight raw [NL; CR]) /\
       rx (line r) = true /\
       ~ ends_with_terminator (line r)) rs).
Proof.
  split.
  - intros body tail Htail Hbody.
    rewrite TrimRight_app_cut.
    + destruct body as [|b body'] using rev_ind; [reflexivity|].
      apply TrimRight_keeps.
      destruct (contains [NL; CR] b) eqn:E; [|reflexivity].
      exfalso. apply Hbody. exists body', b. split; [reflexivity|].
      now apply contains_terminators.
    + eapply Forall_impl; [|exact Htail].
      intros b Hb. now apply contains_terminators.
  - intros rx fs job.
    destruct (Open fs (job_fname job)) as [file err] eqn:E.
    rewrite (Do_reads _ _ _ _ _ E). do 2 eexists. split; [reflexivity|].
    apply Forall_forall. intros r Hr.
    destruct (matches_int_In _ _ _ _ _ Hr) as (_ & Hrx & raw & Hraw & Hline).
    split; [exists raw; now split|]. split; [exact Hrx|].
    rewrite Hline. apply strip_not_terminated.
Qed.

Lemma trailing_terminators_are_stripped_witness :
  TrimRight (bytes "ab" ++ [CR; NL; CR; NL]) [NL; CR] = bytes "ab".
Proof.
  apply (proj1 trailing_terminators_are_stripped (bytes "ab") [CR; NL; CR; NL]).
  - repeat (apply Forall_cons;
              [first [left; reflexivity | right; reflexivity]|]).
    apply Forall_nil.
  - intros (l' & b & E & Hb).
    apply (f_equal (@rev byte)) in E. rewrite rev_app_distr in E.
    cbv in E. injection E as <- _. destruct Hb; discriminate.
Defined.

(** C9. A file that ends with ['\n'] and is read to its end, and a pattern
    that matches the empty line: after the matches of its lines, [Job.Do]
    sends one more match, with the number of lines plus one and an empty
    content. *)
Theorem empty_read_after_last_newline rx fs job file body :
  fs (job_fname job) = inl file -> fits file ->
  failure file = EOF ->
  content file = body ++ [NL] ->
  rx [] = true ->
  Do rx fs job =
  Some (matches rx (job_fname job) 1 (lines (content file)) ++
        [mkResult (job_fname job)
           (Z.of_nat (List.length (lines (content file))) + 1) []],
        []).
Proof.
  intros Hfs Hfits Hfail Hc Hrx.
  rewrite (Do_body_final rx fs job file (content file) []).
  - change (strip []) with (@nil byte). rewrite Hrx, Hfail. reflexivity.
  - exact Hfs.
  - exact Hfits.
  - now rewrite app_nil_r.
  - right. now exists body.
  - intros [].
Qed.

Lemma empty_read_after_last_newline_witness :
  Do rx_any files (job "a.txt") =
  Some (matches rx_any "a.txt" 1 (lines (bytes "x" ++ [NL])) ++
        [mkResult "a.txt"
           (Z.of_nat (List.length (lines (bytes "x" ++ [NL]))) + 1) []],
        []).
Proof.
  apply (empty_read_after_last_newline rx_any files (job "a.txt")
           (mkFile (bytes "x" ++ [NL]) EOF) (bytes "x")).
  - reflexivity.
  - unfold fits. vm_compute. reflexivity.
  - reflexivity.
  - reflexivity.
  - reflexivity.
Defined.

(** C10. Where [runtime.GOOS] is not ["windows"], [commandLineFiles]
    returns the list of file names it was given. *)
Theorem commandLineFiles_identity (GOOS : string) Glob fnames :
  GOOS <> "windows"%string -> commandLineFiles GOOS Glob fnames = fnames.
Proof.
  intros H. unfold commandLineFiles.
  apply String.eqb_neq in H. now rewrite H.
Qed.

Lemma commandLineFiles_identity_witness :
  commandLineFiles "linux" no_glob ["b.txt"; "*.txt"; "a.txt"]%string
  = ["b.txt"; "*.txt"; "a.txt"]%string.
Proof.
  apply (commandLineFiles_identity "linux" no_glob).
  discriminate.
Defined.

(** * Facts about grep *)

(** ** Channel operations *)

Lemma send_Sent {A} (c c' : chan A) v :
  send c v = Sent c' ->
  closed c = false /\ (List.length (buf c) < cap c)%nat /\
  c' = mkChan (buf c ++ [v]) (cap c) (closed c).
Proof.
  unfold send. destruct (closed c); [discriminate|].
  destruct (Nat.ltb_spec (List.length (buf c)) (cap c)) as [Hlt|_];
    [|discriminate].
  intros E. injection E as <-. auto.
Qed.

Lemma send_room {A} (c : chan A) v :
  closed c = false -> (List.length (buf c) < cap c)%nat ->
  send c v = Sent (mkChan (buf c ++ [v]) (cap c) (closed c)).
Proof.
  intros Hc Hroom. unfold send. rewrite Hc.
  apply Nat.ltb_lt in Hroom. now rewrite Hroom.
Qed.

Lemma send_SendPanics {A} (c : chan A) v :
  send c v = SendPanics <-> closed c = true.
Proof.
  unfold send. destruct (closed c); [tauto|].
  destruct (List.length (buf c) <? cap c)%nat; split; discriminate.
Qed.

Lemma recv_Received {A} (c c' : chan A) v :
  recv c = Received v c' ->
  c = mkChan (v :: buf c') (cap c') (closed c').
Proof.
  destruct c as [b n cl]. unfold recv. simpl.
  destruct b as [|x b]; [destruct cl; discriminate|].
  intros H. injection H as <- <-. reflexivity.
Qed.

Lemma recv_RecvClosed {A} (c : chan A) :
  recv c = RecvClosed -> buf c = [] /\ closed c = true.
Proof.
  unfold recv. destruct (buf c); [|discriminate].
  destruct (closed c); [auto|discriminate].
Qed.

Lemma close_Some {A} (c c' : chan A) :
  close c = Some c' ->
  closed c = false /\ c' = mkChan (buf c) (cap c) true.
Proof.
  unfold close. destruct (closed c); [discriminate|].
  intros H. injection H as <-. auto.
Qed.

Lemma close_None {A} (c : chan A) : close c = None <-> closed c = true.
Proof.
  unfold close. destruct (closed c); split; congruence.
Qed.

(** ** Interleavings *)

Lemma interleave_nil_head {A} (ls : list (list A)) out :
  interleave ls out -> interleave ([] :: ls) out.
Proof.
  induction 1 as [ls H|ls1 x xs ls2 out _ IH].
  - constructor. now constructor.
  - apply (interleave_cons ([] :: ls1)). exact IH.
Qed.

Lemma interleave_nil_head_inv {A} (ls : list (list A)) out :
  interleave ([] :: ls) out -> interleave ls out.
Proof.
  intros H. remember ([] :: ls) as ls0 eqn:E. revert ls E.
  induction H as [ls0 H0|ls1 x xs ls2 out _ IH]; intros ls E; subst.
  - constructor. now inversion H0.
  - destruct ls1 as [|l ls1]; [discriminate|].
    injection E as -> <-. constructor. now apply IH.
Qed.

Lemma interleave_Permutation {A} (ls ls' : list (list A)) out :
  Permutation ls ls' -> interleave ls out -> interleave ls' out.
Proof.
  intros P H. revert ls' P.
  induction H as [ls H|ls1 x xs ls2 out _ IH]; intros ls' P.
  - constructor. eapply Permutation_Forall; eassumption.
  - assert (Hin : In (x :: xs) ls').
    { eapply Permutation_in; [exact P|]. apply in_elt. }
    destruct (in_split _ _ Hin) as (l1 & l2 & ->).
    apply Permutation_app_inv in P.
    constructor. apply IH.
    now apply Permutation_elt.
Qed.

Lemma interleave_nil_middle {A} (l1 l2 : list (list A)) out :
  interleave (l1 ++ [] :: l2) out <-> interleave (l1 ++ l2) out.
Proof.
  split; intros H.
  - apply interleave_nil_head_inv.
    eapply interleave_Permutation; [|exact H].
    symmetry. apply Permutation_middle.
  - eapply interleave_Permutation; [apply Permutation_middle|].
    now apply interleave_nil_head.
Qed.

(** An interleaving has the elements of the lists, each as often. *)
Lemma interleave_concat {A} (ls : list (list A)) out :
  interleave ls out -> Permutation out (concat ls).
Proof.
  induction 1 as [ls H|ls1 x xs ls2 out _ IH].
  - induction H as [|l ls -> _ IHl]; [constructor|exact IHl].
  - rewrite concat_app in *. simpl in *.
    apply Permutation_cons_app. exact IH.
Qed.

(** The interleaving of one list is the list. *)
Lemma interleave_one {A} (l out : list A) : interleave [l] out -> out = l.
Proof.
  intros H. remember [l] as ls eqn:E. revert l E.
  induction H as [ls H0|ls1 x xs ls2 out _ IH]; intros l E; subst.
  - inversion H0; subst. reflexivity.
  - destruct ls1 as [|l1 ls1].
    + injection E as <- ->. f_equal. now apply IH.
    + injection E as _ E. destruct ls1; discriminate.
Qed.

(** ** Lists of workers *)

Lemma exited_app ws1 ws2 : exited (ws1 ++ ws2) = (exited ws1 + exited ws2)%nat.
Proof.
  unfold exited. now rewrite filter_app, length_app.
Qed.

Lemma exited_le ws : (exited ws <= List.length ws)%nat.
Proof.
  unfold exited. apply filter_length_le.
Qed.

Lemma exited_all ws :
  exited ws = List.length ws -> Forall (fun w => w = WExit) ws.
Proof.
  induction ws as [|w ws IH]; [constructor|].
  change (w :: ws) with ([w] ++ ws). rewrite exited_app. simpl.
  pose proof (exited_le ws).
  destruct w; unfold exited at 1; simpl; intros E; try lia.
  constructor; [reflexivity|]. apply IH. lia.
Qed.

Lemma not_all_exited ws :
  (exited ws < List.length ws)%nat ->
  exists ws1 w ws2, ws = ws1 ++ w :: ws2 /\ w <> WExit.
Proof.
  induction ws as [|w ws IH]; simpl; [lia|].
  change (w :: ws) with ([w] ++ ws). rewrite exited_app. intros H.
  destruct w;
    try (eexists [], _, ws; split; [reflexivity|discriminate]).
  unfold exited at 1 in H. simpl in H.
  destruct IH as (ws1 & w & ws2 & -> & Hw); [lia|].
  exists (WExit :: ws1), w, ws2. split; [reflexivity|exact Hw].
Qed.

(** ** Every step lowers the measure *)

Lemma sends_of_Do rx fs job rs lg :
  Do rx fs job = Some (rs, lg) -> sends_of rx fs (job_fname job) = rs.
Proof.
  intros H. unfold sends_of. destruct job as [f []]. simpl. now rewrite H.
Qed.

Arguments job_weight : simpl never.

Ltac chan_facts :=
  repeat match goal with
  | H : send _ _ = Sent _ |- _ =>
      apply send_Sent in H; destruct H as (? & ? & ->)
  | H : recv _ = Received _ _ |- _ => apply recv_Received in H; subst
  | H : recv _ = RecvClosed |- _ =>
      apply recv_RecvClosed in H; destruct H as (? & ?)
  | H : close _ = Some _ |- _ =>
      apply close_Some in H; destruct H as (? & ->)
  end.

Section GrepFacts.

Variable cntWorkers : nat.
Variable lineRx : Regexp.
Variable fs : FileSystem.
Variable fnames : list string.

Local Abbreviation gstep := (step cntWorkers lineRx fs fnames).
Local Abbreviation greachable := (reachable cntWorkers lineRx fs fnames).
Local Abbreviation ginit := (init cntWorkers fnames).
Local Abbreviation ginvariant := (invariant cntWorkers lineRx fs fnames).
Local Abbreviation gmeasure := (measure cntWorkers lineRx fs fnames).
Local Abbreviation gleft := (left_to_send lineRx fs fnames).
Local Abbreviation gall := (all_sends lineRx fs fnames).

Lemma measure_decreases s s' : gstep s s' -> (gmeasure s' < gmeasure s)%nat.
Proof.
  destruct 1; chan_facts; unfold measure; simpl;
    repeat rewrite ?map_app, ?list_sum_app, ?length_app; simpl;
    try lia.
  - (* a worker takes a job *)
    unfold job_weight. rewrite (sends_of_Do _ _ _ _ _ H0). lia.
Qed.

(** ** The invariant *)

Lemma exited_cons w ws :
  exited (w :: ws) = ((if is_exit w then 1 else 0) + exited ws)%nat.
Proof.
  unfold exited. simpl. now destruct (is_exit w).
Qed.

Ltac worker_facts :=
  repeat rewrite ?length_app, ?exited_app, ?exited_cons, ?map_app,
    ?Forall_app, ?Forall_cons_iff, ?Exists_app, ?Exists_cons in *;
  simpl in *.

Ltac step_cases Hinv Hstep :=
  destruct Hstep;
  destruct Hinv as
    [Hcaps Hdone Hmain Hjc Hsig Hcnt Hrc Hall Hdr Hnj Hdata];
  simpl in *; chan_facts; simpl in *; worker_facts.

Lemma invariant_init : ginvariant ginit.
Proof.
  constructor; simpl; auto; try (split; congruence); try discriminate.
  intros H. inversion H.
Qed.

Lemma exited_nil : exited [] = 0%nat.
Proof. reflexivity. Qed.

Ltac extra_facts :=
  rewrite ?exited_nil, ?Exists_nil in *;
  try match goal with
  | H : forall i, Some (AWait ?k) = Some (AWait i) -> _ |- _ =>
      pose proof (H _ eq_refl)
  end;
  try match goal with
  | H : _ /\ ?a ++ _ :: _ = [] /\ _ |- _ =>
      exfalso; destruct H as (_ & H & _); destruct a; discriminate H
  end.

Ltac finish :=
  try solve [intuition (subst; simpl in *; auto; try congruence; try lia)].

(** Every step keeps the invariant. *)
Lemma invariant_step s s' : ginvariant s -> gstep s s' -> ginvariant s'.
Proof.
  intros Hinv Hstep. constructor.
  - (* the capacities *)
    step_cases Hinv Hstep; finish.
  - (* done stays open *)
    step_cases Hinv Hstep; finish.
  - (* where the caller is, and what it has started *)
    step_cases Hinv Hstep; try destruct mn; extra_facts; finish.
  - (* jobs is closed when the dispatcher has ended *)
    step_cases Hinv Hstep; extra_facts; finish.
  - (* one signal for each worker that has ended *)
    step_cases Hinv Hstep; extra_facts; finish.
  - (* the counter of the aggregator *)
    step_cases Hinv Hstep; extra_facts; finish;
      intros k Hk; inversion Hk; subst; lia.
  - (* results is closed when the aggregator has ended *)
    step_cases Hinv Hstep; extra_facts; finish.
  - (* the aggregator ends after the workers *)
    step_cases Hinv Hstep; extra_facts; finish.
    intros _. apply exited_all. pose proof (exited_le ws).
    destruct mn; intuition (try congruence; try lia).
  - (* a worker leaves its loop when jobs is closed and drained *)
    step_cases Hinv Hstep; extra_facts; finish.
  - (* without file names there is no job *)
    step_cases Hinv Hstep; extra_facts; finish.
  - (* the results *)
    destruct Hstep; destruct Hinv as [_ _ _ _ _ _ _ _ _ _ Hdata];
      unfold left_to_send in *; simpl in *; chan_facts; simpl in *;
      repeat rewrite ?map_app in *; simpl in *;
      repeat rewrite <- ?app_assoc in *; simpl in *;
      intros out' Hout; repeat rewrite <- ?app_assoc in *; simpl in *;
      try solve [auto].
    + (* a worker is started *)
      apply Hdata. exact (proj1 (interleave_nil_middle _ _ _) Hout).
    + (* a worker takes a job *)
      apply Hdata. apply (proj2 (interleave_nil_middle _ _ _)).
      match goal with
      | H : Do _ _ _ = Some _ |- _ => rewrite (sends_of_Do _ _ _ _ _ H)
      end.
      eapply interleave_Permutation; [|exact Hout].
      apply Permutation_app_head. apply Permutation_middle.
    + (* a worker sends a result *)
      apply Hdata. now constructor.
Qed.

Lemma reachable_invariant s : greachable s -> ginvariant s.
Proof.
  induction 1 as [|s s' _ IH Hstep].
  - apply invariant_init.
  - eapply invariant_step; eassumption.
Qed.

(** No goroutine sends on a closed channel or closes a channel twice. *)
Lemma invariant_no_panic s : ginvariant s -> ~ panics cntWorkers s.
Proof.
  intros [Hcaps Hdone Hmain Hjc Hsig Hcnt Hrc Hall Hdr Hnj Hdata] Hp.
  destruct Hp as [(f & rest & Hd & Hs)|[(Hd & Hc)|[(w & Hw & Hp)|(i & Ha & Hi & Hc)]]].
  - apply send_SendPanics, Hjc in Hs. congruence.
  - apply close_None, Hjc in Hc. congruence.
  - destruct w as [|[|v rs]| |]; simpl in Hp; try contradiction.
    + apply send_SendPanics, Hrc, Hall in Hp.
      rewrite Forall_forall in Hp. specialize (Hp _ Hw). discriminate.
    + apply send_SendPanics in Hp. congruence.
  - apply close_None, Hrc in Hc. congruence.
Qed.

(** ** No deadlock, and termination *)

Hypothesis workers_exist : (1 <= cntWorkers)%nat.

(** Until [grep] has returned and all its goroutines have ended, one of
    them can take a step. *)
Lemma progress s :
  ginvariant s -> (exists s', gstep s s') \/ finished cntWorkers s.
Proof.
  intros [Hcaps Hdone Hmain Hjc Hsig Hcnt Hrc Hall Hdr Hnj Hdata].
  destruct s as [j r d dp ws ag out mn]. simpl in *.
  destruct Hcaps as (Hcj & Hcr & Hcd).
  destruct mn.
  - (* line 78 *)
    destruct Hmain as (-> & -> & ->). left. eexists. eapply step_go_dispatcher.
  - (* line 87 *)
    left. destruct (lt_dec i cntWorkers).
    + eexists. now eapply step_go_worker.
    + eexists. now eapply step_go_workers_end.
  - (* line 100 *)
    destruct Hmain as (_ & _ & ->). left. eexists. eapply step_go_aggregator.
  - (* line 109 *)
    left. destruct Hmain as (Hdp & Hlen & Hag).
    destruct (recv r) as [v r'| |] eqn:Er.
    { eexists. eapply step_print. exact Er. }
    { eexists. eapply step_return. exact Er. }
    assert (Hr : buf r = [] /\ closed r = false).
    { unfold recv in Er. destruct (buf r); [|discriminate].
      destruct (closed r); [discriminate|auto]. }
    destruct Hr as [Hrb Hrc'].
    destruct ag as [[i|]|]; [| |congruence].
    2:{ destruct Hrc as [_ Hrc]. rewrite Hrc in Hrc' by reflexivity.
        discriminate. }
    destruct (lt_dec i cntWorkers) as [Hi|Hi].
    2:{ eexists. eapply step_close_results; [exact Hi|].
        unfold close. rewrite Hrc'. reflexivity. }
    destruct (recv d) as [u d'| |] eqn:Ed.
    { eexists. eapply step_wait_done; [exact Hi|exact Ed]. }
    { eexists. eapply step_wait_closed; [exact Hi|exact Ed]. }
    assert (Hdb : buf d = []).
    { unfold recv in Ed. destruct (buf d); [reflexivity|discriminate]. }
    rewrite Hdb in Hsig. simpl in Hsig.
    destruct (not_all_exited ws) as (ws1 & w & ws2 & -> & Hw); [lia|].
    destruct w as [|[|v rs]| |]; [| | | |congruence].
    + (* the worker waits for a job *)
      destruct (recv j) as [job j'| |] eqn:Ej.
      { destruct (Do_total lineRx fs job) as (rs & lg & HDo).
        eexists. eapply step_take_job; eassumption. }
      { eexists. eapply step_no_job. exact Ej. }
      assert (Hj : buf j = [] /\ closed j = false).
      { unfold recv in Ej. destruct (buf j); [|discriminate].
        destruct (closed j); [discriminate|auto]. }
      destruct Hj as [Hjb Hjc'].
      destruct dp as [[[|f rest]|]|]; [| | |congruence].
      * eexists. eapply step_close_jobs. unfold close. rewrite Hjc'.
        reflexivity.
      * eexists. eapply step_submit. apply send_room; [exact Hjc'|].
        rewrite Hjb, Hcj. simpl. lia.
      * destruct Hjc as [_ Hjc]. rewrite Hjc in Hjc' by reflexivity.
        discriminate.
    + (* the worker is at the end of its job *)
      eexists. eapply step_do_returns.
    + (* the worker has a result to send *)
      eexists. eapply step_send_result. apply send_room; [exact Hrc'|].
      rewrite Hrb, Hcr. simpl. destruct fnames as [|f fs']; [|simpl; lia].
      destruct (Hnj eq_refl) as (_ & _ & Hp).
      rewrite Forall_app, Forall_cons_iff in Hp.
      destruct Hp as (_ & Hp & _). discriminate Hp.
    + (* the worker has its signal to send *)
      eexists. eapply step_signal_done. apply send_room; [exact Hdone|].
      rewrite Hdb, Hcd. simpl. lia.
  - (* grep has returned *)
    right. destruct Hmain as (Hdp & Hlen & Hag & Hrcl & Hrb).
    pose proof (proj1 Hrc Hrcl) as Hex. pose proof (Hall Hex) as Hws.
    unfold finished. simpl. repeat split; try assumption.
    apply Hjc, Hdr. destruct ws as [|w ws]; [simpl in Hlen; lia|].
    inversion Hws; subst. apply Exists_cons_hd. now right.
Qed.

(** When all is finished, what was printed is an interleaving of what the
    jobs send. *)
Lemma finished_stdout s :
  ginvariant s -> finished cntWorkers s -> interleave gall (stdout s).
Proof.
  intros Hinv (Hm & Hrc & Hrb & Hd & Hlen & Hws & Ha).
  pose proof (inv_data _ _ _ _ _ Hinv []) as Hdata.
  rewrite Hrb, !app_nil_r in Hdata. apply Hdata.
  constructor. unfold left_to_send.
  destruct (inv_drained _ _ _ _ _ Hinv) as [_ ->].
  - destruct (workers s) as [|w ws]; [simpl in Hlen; lia|].
    inversion Hws; subst. apply Exists_cons_hd. now right.
  - rewrite Hd. simpl. rewrite app_nil_r.
    apply Forall_forall. intros l Hl. apply in_map_iff in Hl.
    destruct Hl as (w & <- & Hw). rewrite Forall_forall in Hws.
    now rewrite (Hws _ Hw).
Qed.

Lemma inevitable_impl (P Q : state -> Prop) s :
  (forall s, P s -> Q s) ->
  inevitable cntWorkers lineRx fs fnames P s ->
  inevitable cntWorkers lineRx fs fnames Q s.
Proof.
  intros HPQ. induction 1 as [s H|s Hex _ IH].
  - apply inev_now. now apply HPQ.
  - apply inev_step; assumption.
Qed.

(** On every schedule [grep] returns, with all its goroutines ended, after
    it has printed an interleaving of what the jobs send. *)
Lemma grep_inevitable :
  inevitable cntWorkers lineRx fs fnames
    (fun s => finished cntWorkers s /\ interleave gall (stdout s)) ginit.
Proof.
  assert (G : forall m s, (gmeasure s < m)%nat -> ginvariant s ->
            inevitable cntWorkers lineRx fs fnames
              (fun s => finished cntWorkers s /\ interleave gall (stdout s)) s).
  { induction m as [|m IH]; intros s Hm Hinv; [lia|].
    destruct (progress s Hinv) as [Hex|Hfin].
    - apply inev_step; [exact Hex|].
      intros s' Hstep. apply IH.
      + pose proof (measure_decreases _ _ Hstep). lia.
      + eapply invariant_step; eassumption.
    - apply inev_now. split; [exact Hfin|]. now apply finished_stdout. }
  apply (G (S (gmeasure ginit))); [lia|apply invariant_init].
Qed.

End GrepFacts.

(** ** What grep prints *)

Lemma interleave_filter {A} (p : A -> bool) (ls : list (list A)) out :
  interleave ls out -> interleave (map (filter p) ls) (filter p out).
Proof.
  induction 1 as [ls H|ls1 x xs ls2 out _ IH].
  - constructor. apply Forall_forall. intros l Hl.
    apply in_map_iff in Hl. destruct Hl as (l' & <- & Hl').
    rewrite Forall_forall in H. now rewrite (H _ Hl').
  - rewrite map_app in *. simpl in *.
    destruct (p x); [now constructor|exact IH].
Qed.

Lemma filter_none {A} (p : A -> bool) (l : list A) :
  (forall x, In x l -> p x = false) -> filter p l = [].
Proof.
  induction l as [|x l IH]; intros H; [reflexivity|].
  simpl. rewrite (H x (in_eq _ _)). apply IH.
  intros y Hy. apply H. now apply in_cons.
Qed.

(** When all lists but one are empty, the interleaving is this list. *)
Lemma interleave_single {A} (ls1 ls2 : list (list A)) l out :
  Forall (fun l' => l' = []) ls1 -> Forall (fun l' => l' = []) ls2 ->
  interleave (ls1 ++ l :: ls2) out -> out = l.
Proof.
  intros H1 H2 H.
  assert (H' : interleave (l :: ls1 ++ ls2) out).
  { eapply interleave_Permutation; [|exact H].
    symmetry. apply Permutation_middle. }
  assert (H12 : Forall (fun l' => l' = []) (ls1 ++ ls2)).
  { apply Forall_app. now split. }
  clear H H1 H2. induction H12 as [|l' ls -> _ IH].
  - now apply interleave_one.
  - apply IH. apply interleave_nil_head_inv.
    eapply interleave_Permutation; [|exact H']. apply perm_swap.
Qed.

(** The results of a job carry its file name. *)
Lemma sends_of_fname rx fs f r : In r (sends_of rx fs f) -> fname r = f.
Proof.
  unfold sends_of.
  destruct (Open fs f) as [file err] eqn:E.
  rewrite (Do_reads rx fs (mkJob f results_chan) file err E).
  intros H. now apply matches_int_In in H.
Qed.

(** What a job sends, for a file that is opened and read to its end. *)
Lemma sends_of_file rx fs f file :
  fs f = inl file -> fits file ->
  sends_of rx fs f = matches rx f 1 (reads (content file)).
Proof.
  intros Hfs Hfits. unfold sends_of.
  now rewrite (Do_fits rx fs (mkJob f results_chan) file None
                 (Open_ok _ _ _ Hfs) Hfits).
Qed.

(** On every schedule [grep] returns after it has printed what the jobs
    send, each result once. *)
Theorem grep_results cntWorkers rx fs fnames :
  (1 <= cntWorkers)%nat ->
  inevitable cntWorkers rx fs fnames
    (fun s => finished cntWorkers s /\
              Permutation (stdout s) (concat (map (sends_of rx fs) fnames)))
    (init cntWorkers fnames).
Proof.
  intros Hn.
  eapply inevitable_impl; [|apply grep_inevitable; exact Hn].
  intros s [Hfin Hout]. split; [exact Hfin|].
  now apply interleave_concat.
Qed.

(** The results of a file that is listed once are printed in the order
    its job sends them, whatever is printed in between. *)
Theorem grep_per_file_order cntWorkers rx fs fnames f :
  (1 <= cntWorkers)%nat -> NoDup fnames -> In f fnames ->
  inevitable cntWorkers rx fs fnames
    (fun s => finished cntWorkers s /\
              filter (fun r => String.eqb (fname r) f) (stdout s) =
              sends_of rx fs f)
    (init cntWorkers fnames).
Proof.
  intros Hn Hnd Hin.
  eapply inevitable_impl; [|apply grep_inevitable; exact Hn].
  intros s [Hfin Hout]. split; [exact Hfin|].
  apply (interleave_filter (fun r => String.eqb (fname r) f)) in Hout.
  destruct (in_split _ _ Hin) as (l1 & l2 & ->).
  apply NoDup_remove_2 in Hnd.
  unfold all_sends in Hout. rewrite !map_app in Hout. simpl in Hout.
  assert (Hother : forall l, ~ In f l ->
            Forall (fun l' => l' = [])
              (map (filter (fun r => String.eqb (fname r) f))
                   (map (sends_of rx fs) l))).
  { intros l Hl. apply Forall_forall. intros l' Hl'.
    apply in_map_iff in Hl'. destruct Hl' as (rs & <- & Hrs).
    apply in_map_iff in Hrs. destruct Hrs as (g & <- & Hg).
    apply filter_none. intros r Hr. apply sends_of_fname in Hr.
    apply String.eqb_neq. congruence. }
  apply interleave_single in Hout.
  - rewrite Hout. apply forallb_filter_id. apply forallb_forall.
    intros r Hr. apply sends_of_fname in Hr. now apply String.eqb_eq.
  - apply Hother. intros H. apply Hnd, in_or_app. now left.
  - apply Hother. intros H. apply Hnd, in_or_app. now right.
Qed.

(** A file that cannot be opened adds nothing to what [grep] prints when
    the pattern does not match the empty line. *)
Lemma sends_of_open_failure rx fs f err :
  fs f = inr err -> rx [] = false -> sends_of rx fs f = [].
Proof.
  intros Hfs Hrx. unfold sends_of.
  rewrite (Do_open_failure rx fs (mkJob f results_chan) err Hfs).
  now rewrite Hrx.
Qed.

(** What [grep] prints when every file is opened and read to its end: the
    matches of all that [ReadBytes] returned, the read at the end of input
    included. *)
Theorem grep_reports_matches_of_reads cntWorkers rx fs fnames
    (file_of : string -> File) :
  (1 <= cntWorkers)%nat ->
  (forall f, In f fnames ->
     fs f = inl (file_of f) /\ failure (file_of f) = EOF /\ fits (file_of f)) ->
  inevitable cntWorkers rx fs fnames
    (fun s => finished cntWorkers s /\
       Permutation (stdout s)
         (concat (map (fun f => matches rx f 1 (reads (content (file_of f))))
                      fnames)))
    (init cntWorkers fnames).
Proof.
  intros Hn Hfiles.
  eapply inevitable_impl; [|apply grep_results; exact Hn].
  intros s [Hfin Hout]. split; [exact Hfin|].
  rewrite Hout. apply Permutation_refl'. f_equal.
  apply map_ext_in. intros f Hf.
  destruct (Hfiles f Hf) as (Hfs & _ & Hfits).
  now apply sends_of_file.
Qed.

(** A channel that was made without a buffer has no sender or no receiver:
    [jobs] and [done] only when there is no worker, [results] only when no
    worker ever has a result to send. So no send ever meets a waiting
    receive on such a channel, and [step] needs no rule for it. *)
Theorem unbuffered_channels_unused cntWorkers rx fs fnames s :
  reachable cntWorkers rx fs fnames s ->
  (cap (jobs s) = 0%nat -> workers s = []) /\
  (cap (done s) = 0%nat -> workers s = []) /\
  (cap (results s) = 0%nat ->
   Forall (fun w => pending w = []) (workers s)).
Proof.
  intros Hs. apply reachable_invariant in Hs.
  destruct Hs as [(Hcj & Hcr & Hcd) _ Hmain _ _ _ _ _ _ Hnj _].
  assert (Hlen : (List.length (workers s) <= cntWorkers)%nat).
  { destruct (main s) as [|i| | |].
    - destruct Hmain as (_ & -> & _). simpl. lia.
    - destruct Hmain as (_ & Hl & Hi & _). lia.
    - destruct Hmain as (_ & Hl & _). lia.
    - destruct Hmain as (_ & Hl & _). lia.
    - destruct Hmain as (_ & Hl & _). lia. }
  assert (Hnone : cntWorkers = 0%nat -> workers s = []).
  { intros E. destruct (workers s); [reflexivity|simpl in Hlen; lia]. }
  repeat split.
  - intros E. apply Hnone. congruence.
  - intros E. apply Hnone. congruence.
  - intros E. apply Hnj. apply length_zero_iff_nil. congruence.
Qed.

(** * grep: the properties of the specification *)

(** C1, at the failing input. [a.txt] is the one line ["x\n"], it is opened
    and read without error, and the pattern matches every line, so the one
    triple whose content matches is [("a.txt", 1, "x")]. On every schedule
    and with any number of workers, [grep] prints a second result,
    [("a.txt", 2, "")], for the empty read at the end of input. *)
Theorem grep_reports_the_read_at_end_of_input (n : nat) :
  files "a.txt" = inl (mkFile (bytes "x" ++ [NL]) EOF) /\
  matches rx_any "a.txt" 1 (lines (bytes "x" ++ [NL])) =
    [mkResult "a.txt" 1 (bytes "x")] /\
  inevitable (S n) rx_any files ["a.txt"%string]
    (fun s => finished (S n) s /\
              stdout s = [mkResult "a.txt" 1 (bytes "x");
                          mkResult "a.txt" 2 []])
    (init (S n) ["a.txt"%string]).
Proof.
  split; [reflexivity|]. split; [reflexivity|].
  eapply inevitable_impl; [|apply grep_inevitable; lia].
  intros s [Hfin Hout]. split; [exact Hfin|].
  apply interleave_one in Hout. rewrite Hout. reflexivity.
Qed.

(** C7. With any list of file names, the empty one too, and at least one
    worker, on every schedule: as long as [grep] has not returned, some
    goroutine can take a step, and [grep] does return, having seen
    [results] closed and drained, when the dispatcher, the workers and the
    aggregator have ended. No goroutine panics on the way. *)
Theorem grep_returns cntWorkers rx fs fnames :
  (1 <= cntWorkers)%nat ->
  inevitable cntWorkers rx fs fnames (finished cntWorkers)
    (init cntWorkers fnames) /\
  (forall s, reachable cntWorkers rx fs fnames s -> ~ panics cntWorkers s).
Proof.
  intros Hn. split.
  - eapply inevitable_impl; [|apply grep_inevitable; exact Hn].
    intros s [Hfin _]. exact Hfin.
  - intros s Hs. eapply invariant_no_panic.
    apply reachable_invariant. exact Hs.
Qed.

Lemma grep_returns_witness :
  inevitable 2 rx_any files ["a.txt"; "missing.txt"]%string (finished 2)
    (init 2 ["a.txt"; "missing.txt"]%string) /\
  (forall s,
     reachable 2 rx_any files ["a.txt"; "missing.txt"]%string s ->
     ~ panics 2 s).
Proof.
  apply (grep_returns 2 rx_any files ["a.txt"; "missing.txt"]%string).
  apply le_S, le_n.
Defined.

(** * More about Job.Do *)

Lemma matches_In_iff rx f ls : forall n r,
  In r (matches rx f n ls) <->
  fname r = f /\ rx (line r) = true /\
  exists i raw, nth_error ls i = Some raw /\
                lino r = n + Z.of_nat i /\ line r = strip raw.
Proof.
  induction ls as [|l ls IH]; intros n r; cbn [matches].
  - split; [intros []|]. intros (_ & _ & [|i] & raw & H & _); discriminate.
  - rewrite in_app_iff, IH. split.
    + intros [H|(Hf & Hrx & i & raw & Hi & Hn & Hl)].
      * destruct (rx (strip l)) eqn:E; [|destruct H].
        destruct H as [<-|[]]. simpl. repeat split; try assumption.
        exists 0%nat, l. repeat split. lia.
      * repeat split; try assumption.
        exists (S i), raw. repeat split; try assumption. lia.
    + intros (Hf & Hrx & [|i] & raw & Hi & Hn & Hl).
      * left. simpl in Hi. injection Hi as <-.
        rewrite <- Hl, Hrx. left. destruct r as [rf rn rl]. simpl in *.
        subst. f_equal. lia.
      * right. repeat split; try assumption.
        exists i, raw. repeat split; try assumption. lia.
Qed.

Lemma dropWhile_split {A} (p : A -> bool) (l : list A) :
  exists pre, l = pre ++ dropWhile p l /\ Forall (fun x => p x = true) pre.
Proof.
  induction l as [|x l (pre & E & Hpre)]; simpl.
  - exists []. split; [reflexivity|constructor].
  - destruct (p x) eqn:Hx.
    + exists (x :: pre). split; [simpl; now f_equal|now constructor].
    + exists []. split; [reflexivity|constructor].
Qed.

(** [TrimRight] cuts a tail of bytes of the cutset off, and nothing else. *)
Lemma TrimRight_split s cut :
  exists tail, s = TrimRight s cut ++ tail /\
               Forall (fun b => contains cut b = true) tail.
Proof.
  destruct (dropWhile_split (contains cut) (rev s)) as (pre & E & Hpre).
  exists (rev pre). split; [|now apply Forall_rev].
  unfold TrimRight. rewrite <- rev_app_distr, <- E. now rewrite rev_involutive.
Qed.

(** A line that [ReadBytes] returns has no newline but at its end. *)
Lemma reads_shape input raw :
  In raw (reads input) ->
  ~ In NL raw \/ exists body, raw = body ++ [NL] /\ ~ In NL body.
Proof.
  revert raw. induction input as [|b rest IH]; intros raw; simpl.
  - intros [<-|[]]. left. intros [].
  - destruct (Byte.eqb b NL) eqn:E.
    + apply byte_eqb_eq in E. subst b. intros [<-|H]; [|now apply IH].
      right. exists []. split; [reflexivity|intros []].
    + assert (Hb : b <> NL).
      { intros ->. now rewrite (proj2 (byte_eqb_eq NL NL) eq_refl) in E. }
      destruct (reads rest) as [|l ls] eqn:R.
      * intros [<-|[]]. left. simpl. intuition congruence.
      * intros [<-|H].
        -- destruct (IH l (in_eq _ _)) as [Hl|(body & -> & Hbody)].
           ++ left. simpl. intuition congruence.
           ++ right. exists (b :: body). split; [reflexivity|].
              simpl. intuition congruence.
        -- apply IH. now apply in_cons.
Qed.

Lemma strip_no_NL input raw : In raw (reads input) -> ~ In NL (strip raw).
Proof.
  intros Hraw Hin.
  destruct (TrimRight_split raw [NL; CR]) as (tail & E & Htail).
  fold (strip raw) in E.
  destruct (reads_shape _ _ Hraw) as [Hno|(body & Eb & Hbody)].
  - apply Hno. rewrite E. apply in_or_app. now left.
  - subst raw. destruct tail as [|t tail'] using rev_ind.
    + rewrite app_nil_r in E. apply (strip_not_terminated (body ++ [NL])).
      exists body, NL. split; [now symmetry|now left].
    + rewrite app_assoc in E. apply app_inj_tail in E.
      destruct E as [E _]. apply Hbody. rewrite E.
      apply in_or_app. now left.
Qed.

(** X1. [Job.Do] sends a result for line [i+1] with the stripped content
    of the [i]-th line read exactly when this content matches, and it
    sends nothing else: no line that matches is left out, no result is
    made up. *)
Theorem Do_sends_exactly_the_matching_lines rx fs job file err :
  Open fs (job_fname job) = (file, err) -> fits file ->
  exists rs lg,
    Do rx fs job = Some (rs, lg) /\
    forall r, In r rs <->
      fname r = job_fname job /\ rx (line r) = true /\
      exists i raw, nth_error (reads (content file)) i = Some raw /\
                    lino r = Z.of_nat i + 1 /\ line r = strip raw.
Proof.
  intros Hopen Hfits. do 2 eexists.
  split; [exact (Do_fits _ _ _ _ _ Hopen Hfits)|].
  intros r. rewrite matches_In_iff.
  split; intros (Hf & Hrx & i & raw & Hi & Hn & Hl);
    (repeat split; try assumption; exists i, raw; repeat split;
     try assumption; lia).
Qed.

Lemma Do_sends_exactly_the_matching_lines_witness :
  exists rs lg,
    Do rx_x files (job "b.txt") = Some (rs, lg) /\
    forall r, In r rs <->
      fname r = "b.txt"%string /\ rx_x (line r) = true /\
      exists i raw,
        nth_error
          (reads (bytes "ax" ++ [NL] ++ bytes "yz" ++ [NL] ++ bytes "xb")) i
          = Some raw /\
        lino r = Z.of_nat i + 1 /\ line r = strip raw.
Proof.
  apply (Do_sends_exactly_the_matching_lines rx_x files (job "b.txt")
           (mkFile (bytes "ax" ++ [NL] ++ bytes "yz" ++ [NL] ++ bytes "xb") EOF)
           None).
  - reflexivity.
  - unfold fits. vm_compute. reflexivity.
Defined.

(** X2. Whatever the file, a result that [Job.Do] sends carries the file
    name of the job, its content has no ['\n'] anywhere, and it is a line
    that was read, less a tail of ['\n'] and ['\r'] only. *)
Theorem Do_results_are_lines_of_the_file rx fs job :
  exists rs lg,
    Do rx fs job = Some (rs, lg) /\
    Forall (fun r =>
      fname r = job_fname job /\
      ~ In NL (line r) /\
      exists raw tail,
        In raw (reads (content (fst (Open fs (job_fname job))))) /\
        raw = line r ++ tail /\
        Forall (fun b => b = NL \/ b = CR) tail) rs.
Proof.
  destruct (Open fs (job_fname job)) as [file err] eqn:E.
  rewrite (Do_reads _ _ _ _ _ E). do 2 eexists. split; [reflexivity|].
  apply Forall_forall. intros r Hr.
  destruct (matches_int_In _ _ _ _ _ Hr) as (Hf & _ & raw & Hraw & Hline).
  split; [exact Hf|]. split.
  - rewrite Hline. eapply strip_no_NL. exact Hraw.
  - destruct (TrimRight_split raw [NL; CR]) as (tail & Et & Htail).
    exists raw, tail. split; [exact Hraw|]. split; [now rewrite Hline|].
    eapply Forall_impl; [|exact Htail].
    intros b Hb. now apply contains_terminators.
Qed.

(** X3. [Job.Do] logs nothing exactly when the file is opened and read to
    its end. *)
Theorem Do_logs_nothing_iff_clean rx fs job :
  exists rs lg,
    Do rx fs job = Some (rs, lg) /\
    (lg = [] <->
     exists file, fs (job_fname job) = inl file /\ failure file = EOF).
Proof.
  destruct (Open fs (job_fname job)) as [file err] eqn:E.
  rewrite (Do_reads _ _ _ _ _ E). do 2 eexists. split; [reflexivity|].
  unfold Open in E. destruct (fs (job_fname job)) as [file'|err'].
  - injection E as -> <-. simpl. unfold read_log. split.
    + intros H. exists file. split; [reflexivity|].
      destruct (failure file); [reflexivity|discriminate].
    + intros (file'' & [= <-] & ->). reflexivity.
  - injection E as <- <-. simpl. split; [discriminate|].
    intros (file'' & H & _). discriminate.
Qed.

(** X4. When [os.Open] fails, [Job.Do] logs the error of [os.Open], then
    the error of reading the nil file, and it sends at most one result:
    line 1 with empty content, when the pattern matches the empty line. *)
Theorem open_failure_is_logged_twice rx fs job err :
  fs (job_fname job) = inr err ->
  exists rs,
    Do rx fs job = Some (rs, [LogOpen err; LogRead ErrInvalid]) /\
    (rx [] = false -> rs = []) /\
    (rx [] = true -> rs = [mkResult (job_fname job) 1 []]).
Proof.
  intros H. rewrite (Do_open_failure rx fs job err H).
  eexists. split; [reflexivity|].
  split; intros ->; reflexivity.
Qed.

Lemma open_failure_is_logged_twice_witness :
  exists rs,
    Do rx_x files (job "missing.txt") =
      Some (rs, [LogOpen no_such_file; LogRead ErrInvalid]) /\
    (rx_x [] = false -> rs = []) /\
    (rx_x [] = true -> rs = [mkResult "missing.txt" 1 []]).
Proof.
  apply (open_failure_is_logged_twice rx_x files (job "missing.txt")
           no_such_file).
  reflexivity.
Defined.

Lemma newlines_cons b rest :
  newlines (b :: rest) =
  if Byte.eqb b NL then S (newlines rest) else newlines rest.
Proof.
  unfold newlines. simpl. now destruct (Byte.eqb b NL).
Qed.

Lemma ReadBytes_newlines input e l err rest :
  ReadBytes NL input e = (l, err, rest) ->
  newlines input =
  match err with
  | None => S (newlines rest)
  | Some _ => 0%nat
  end.
Proof.
  revert l err rest. induction input as [|b input IH]; intros l err rest H.
  - simpl in H. injection H as <- <- <-. reflexivity.
  - simpl in H. rewrite newlines_cons. destruct (Byte.eqb b NL).
    + injection H as <- <- <-. reflexivity.
    + destruct (ReadBytes NL input e) as [[l' err'] rest'] eqn:E.
      injection H as <- <- <-. exact (IH _ _ _ eq_refl).
Qed.

(** X5. The loop of [Job.Do] reads once for each ['\n'] of the input and
    once more: it reaches its [break] within [k] iterations exactly when
    [k] is more than the number of newlines. *)
Theorem Do_loop_iterations rx job : forall k input e n,
  Do_loop rx k job input e n = None <-> (k <= newlines input)%nat.
Proof.
  induction k as [|k IH]; intros input e n.
  - simpl. split; [lia|reflexivity].
  - cbn [Do_loop].
    destruct (ReadBytes NL input e) as [[l err] rest] eqn:E.
    rewrite (ReadBytes_newlines _ _ _ _ _ E).
    destruct err as [err|].
    + split; [discriminate|lia].
    + specialize (IH rest e (GoInt.incr n)).
      destruct (Do_loop rx k job rest e (GoInt.incr n)) as [[rs lg]|].
      * split; [discriminate|]. intros H.
        assert (H' : (k <= newlines rest)%nat) by lia.
        apply IH in H'. discriminate.
      * split; [|reflexivity]. intros _.
        pose proof (proj1 IH eq_refl). lia.
Qed.

(** ** DOS line ends *)

Lemma reads_cons_nil b rest : reads (b :: rest) <> [].
Proof.
  simpl. destruct (Byte.eqb b NL); [discriminate|].
  destruct (reads rest); discriminate.
Qed.

Lemma dropWhile_app {A} (p : A -> bool) (l1 l2 : list A) :
  dropWhile p (l1 ++ l2) =
  match dropWhile p l1 with
  | [] => dropWhile p l2
  | d => d ++ l2
  end.
Proof.
  induction l1 as [|x l1 IH]; simpl; [now destruct (dropWhile p l2)|].
  now destruct (p x).
Qed.

(** What [TrimRight] leaves of [b :: l] is known from what it leaves of
    [l]. *)
Lemma TrimRight_cons b l cut :
  TrimRight (b :: l) cut =
  match TrimRight l cut with
  | [] => if contains cut b then [] else [b]
  | t => b :: t
  end.
Proof.
  unfold TrimRight. simpl. rewrite dropWhile_app.
  destruct (dropWhile (contains cut) (rev l)) as [|x d].
  - simpl. now destruct (contains cut b).
  - rewrite rev_app_distr. simpl.
    destruct (rev d ++ [x]) eqn:E; [|reflexivity].
    now destruct (rev d).
Qed.

Lemma map_strip_reads_unix2dos text :
  map strip (reads (unix2dos text)) = map strip (reads text).
Proof.
  induction text as [|b rest IH]; [reflexivity|].
  change (unix2dos (b :: rest))
    with ((if Byte.eqb b NL then [CR; NL] else [b]) ++ unix2dos rest).
  cbn [reads]. destruct (Byte.eqb b NL) eqn:E.
  - cbn [app reads]. change (Byte.eqb CR NL) with false.
    change (Byte.eqb NL NL) with true. cbv iota. cbn [map].
    apply byte_eqb_eq in E. subst b. now rewrite IH.
  - cbn [app reads]. rewrite E.
    destruct (reads (unix2dos rest)) as [|l ls] eqn:R1;
      destruct (reads rest) as [|l' ls'] eqn:R2; try discriminate IH.
    + reflexivity.
    + cbn [map] in *. injection IH as Hl Hls.
      unfold strip in *. rewrite !(TrimRight_cons b), Hl, Hls. reflexivity.
Qed.

Lemma matches_strip_congr rx f ls : forall ls' n,
  map strip ls = map strip ls' -> matches rx f n ls = matches rx f n ls'.
Proof.
  induction ls as [|l ls IH]; intros [|l' ls'] n H; try discriminate H.
  - reflexivity.
  - cbn [map] in H. injection H as Hl Hls. cbn [matches].
    rewrite Hl. f_equal. now apply IH.
Qed.

Lemma unix2dos_length text :
  (List.length text <= List.length (unix2dos text))%nat.
Proof.
  induction text as [|b rest IH]; [simpl; lia|].
  change (unix2dos (b :: rest))
    with ((if Byte.eqb b NL then [CR; NL] else [b]) ++ unix2dos rest).
  rewrite length_app. destruct (Byte.eqb b NL); simpl; lia.
Qed.

(** X6. A file gives the same results and the same log with DOS line ends
    (["\r\n"]) as with Unix line ends. *)
Theorem dos_line_ends_change_nothing rx fs fs' job text e :
  fs (job_fname job) = inl (mkFile text e) ->
  fs' (job_fname job) = inl (mkFile (unix2dos text) e) ->
  fits (mkFile (unix2dos text) e) ->
  Do rx fs' job = Do rx fs job.
Proof.
  intros Hfs Hfs' Hfits.
  rewrite (Do_fits _ _ _ _ _ (Open_ok _ _ _ Hfs') Hfits).
  rewrite (Do_fits _ _ _ _ _ (Open_ok _ _ _ Hfs)).
  - simpl. f_equal. f_equal.
    apply matches_strip_congr, map_strip_reads_unix2dos.
  - unfold fits in *. simpl in *. pose proof (unix2dos_length text). lia.
Qed.

Lemma dos_line_ends_change_nothing_witness :
  Do rx_x MoreExamples.dos_files (job "b.txt") = Do rx_x files (job "b.txt").
Proof.
  apply (dos_line_ends_change_nothing rx_x files MoreExamples.dos_files
           (job "b.txt")
           (bytes "ax" ++ [NL] ++ bytes "yz" ++ [NL] ++ bytes "xb") EOF).
  - reflexivity.
  - reflexivity.
  - unfold fits. vm_compute. reflexivity.
Defined.

(** * More about commandLineFiles *)

Lemma glob_args_flat_map Glob fnames : forall args,
  glob_args Glob args fnames = args ++ flat_map (expand Glob) fnames.
Proof.
  induction fnames as [|f fnames IH]; intros args; simpl.
  - now rewrite app_nil_r.
  - unfold expand at 1. destruct (Glob f) as [[m|] [e|]];
      rewrite IH, <- ?app_assoc; reflexivity.
Qed.

Lemma commandLineFiles_windows Glob fnames :
  commandLineFiles "windows" Glob fnames = flat_map (expand Glob) fnames.
Proof.
  unfold commandLineFiles. simpl. apply glob_args_flat_map.
Qed.

(** X7. The arguments are expanded one by one, in their order: the
    expansion of a list is the expansion of its first part followed by
    the expansion of the rest, on Windows as elsewhere. *)
Theorem commandLineFiles_app GOOS Glob fnames1 fnames2 :
  commandLineFiles GOOS Glob (fnames1 ++ fnames2) =
  commandLineFiles GOOS Glob fnames1 ++ commandLineFiles GOOS Glob fnames2.
Proof.
  unfold commandLineFiles. destruct (String.eqb GOOS "windows").
  - rewrite !glob_args_flat_map. simpl. apply flat_map_app.
  - reflexivity.
Qed.

(** X8. On Windows a name is in the result exactly when it is an argument
    that is not a valid pattern, or a match of an argument that is one.
    So an argument that matches no file is dropped. *)
Theorem commandLineFiles_windows_members Glob fnames x :
  In x (commandLineFiles "windows" Glob fnames) <->
  exists f, In f fnames /\
    ((exists e, snd (Glob f) = Some e /\ x = f) \/
     (snd (Glob f) = None /\ exists m, fst (Glob f) = Some m /\ In x m)).
Proof.
  rewrite commandLineFiles_windows, in_flat_map.
  split; intros (f & Hf & H); exists f; (split; [exact Hf|]);
    unfold expand in *; destruct (Glob f) as [[m|] [e|]]; simpl in *.
  - left. destruct H as [<-|[]]. eauto.
  - right. eauto.
  - left. destruct H as [<-|[]]. eauto.
  - destruct H.
  - destruct H as [(e' & _ & ->)|(H & _)]; [now left|discriminate].
  - destruct H as [(e' & H & _)|(_ & m' & [= <-] & H)]; [discriminate|exact H].
  - destruct H as [(e' & _ & ->)|(H & _)]; [now left|discriminate].
  - destruct H as [(e' & H & _)|(_ & m' & H & _)]; discriminate.
Qed.

(** X9. When every argument is a name that [filepath.Glob] matches with
    itself alone (an existing file, no pattern characters), the list is
    returned as it is, on Windows too. *)
Theorem commandLineFiles_plain_names GOOS Glob fnames :
  (forall f, In f fnames -> Glob f = (Some [f], None)) ->
  commandLineFiles GOOS Glob fnames = fnames.
Proof.
  intros H. unfold commandLineFiles.
  destruct (String.eqb GOOS "windows"); [|reflexivity].
  rewrite glob_args_flat_map. simpl.
  induction fnames as [|f fnames IH]; [reflexivity|].
  simpl. unfold expand at 1. rewrite (H f (in_eq _ _)). simpl. f_equal.
  apply IH. intros g Hg. apply H. now apply in_cons.
Qed.

Lemma commandLineFiles_plain_names_witness :
  commandLineFiles "windows" MoreExamples.glob_ab ["b.txt"; "a.txt"]%string
  = ["b.txt"; "a.txt"]%string.
Proof.
  apply (commandLineFiles_plain_names "windows" MoreExamples.glob_ab).
  intros f [<-|[<-|[]]]; reflexivity.
Defined.

(** * More about main *)

Section MainFacts.

Variable GOOS : string.
Variable Glob : GlobFn.
Variable Compile : string -> Regexp + error.
Variable Base : string -> string.

Local Abbreviation gmain := (main_of GOOS Glob Compile Base).

Lemma main_of_args prog pattern file files :
  gmain (prog :: pattern :: file :: files) =
  if String.eqb pattern "-h" || String.eqb pattern "--help"
  then Usage (Base prog)
  else match Compile pattern with
       | inr err => InvalidRegexp err
       | inl lineRx =>
           Grep lineRx (commandLineFiles GOOS Glob (file :: files))
       end.
Proof. reflexivity. Qed.

Lemma main_of_few_args Args :
  (List.length Args < 3)%nat -> gmain Args = usage Base Args.
Proof.
  intros H. unfold main_of. apply Nat.ltb_lt in H. now rewrite H.
Qed.

End MainFacts.

(** X10. With the program name in [os.Args], [main] never indexes
    [os.Args] out of its range, however few arguments there are: it
    prints the usage line, or reports the pattern, or runs [grep]. *)
Theorem main_never_out_of_range GOOS Glob Compile Base Args :
  Args <> [] ->
  (exists prog, main_of GOOS Glob Compile Base Args = Usage prog) \/
  (exists err, main_of GOOS Glob Compile Base Args = InvalidRegexp err) \/
  (exists lineRx fnames,
     main_of GOOS Glob Compile Base Args = Grep lineRx fnames).
Proof.
  intros Hne. destruct Args as [|prog [|pattern [|file files]]].
  - congruence.
  - left. now eexists.
  - left. now eexists.
  - rewrite main_of_args.
    destruct (String.eqb pattern "-h" || String.eqb pattern "--help").
    + left. now eexists.
    + destruct (Compile pattern) as [rx|err].
      * right. right. now do 2 eexists.
      * right. left. now eexists.
Qed.

Lemma main_never_out_of_range_witness :
  (exists prog,
     main_of "linux" no_glob MoreExamples.compile MoreExamples.base
       ["/usr/bin/cgrep"%string] = Usage prog) \/
  (exists err,
     main_of "linux" no_glob MoreExamples.compile MoreExamples.base
       ["/usr/bin/cgrep"%string] = InvalidRegexp err) \/
  (exists lineRx fnames,
     main_of "linux" no_glob MoreExamples.compile MoreExamples.base
       ["/usr/bin/cgrep"%string] = Grep lineRx fnames).
Proof.
  apply (main_never_out_of_range "linux" no_glob MoreExamples.compile
           MoreExamples.base ["/usr/bin/cgrep"%string]).
  discriminate.
Defined.

(** X11. [main] runs [grep] exactly when there are a pattern and at least
    one file argument, the pattern is neither [-h] nor [--help], and it
    compiles; [grep] then gets the compiled pattern and the file
    arguments as [commandLineFiles] returns them. *)
Theorem main_runs_grep_iff GOOS Glob Compile Base Args lineRx fnames :
  main_of GOOS Glob Compile Base Args = Grep lineRx fnames <->
  exists prog pattern file files,
    Args = prog :: pattern :: file :: files /\
    pattern <> "-h"%string /\ pattern <> "--help"%string /\
    Compile pattern = inl lineRx /\
    fnames = commandLineFiles GOOS Glob (file :: files).
Proof.
  split.
  - intros H. destruct Args as [|prog [|pattern [|file files]]];
      try discriminate H.
    rewrite main_of_args in H.
    destruct (String.eqb pattern "-h") eqn:E1; [discriminate H|].
    destruct (String.eqb pattern "--help") eqn:E2; [discriminate H|].
    simpl in H. destruct (Compile pattern) as [rx|err] eqn:E3;
      [|discriminate H].
    injection H as -> <-.
    exists prog, pattern, file, files.
    apply String.eqb_neq in E1, E2. now repeat split.
  - intros (prog & pattern & file & files & -> & H1 & H2 & H3 & ->).
    rewrite main_of_args. apply String.eqb_neq in H1, H2.
    now rewrite H1, H2, H3.
Qed.

(** * More about grep *)

(** The lists one after the other are an interleaving. *)
Lemma interleave_concat_self {A} (ls : list (list A)) :
  interleave ls (concat ls).
Proof.
  induction ls as [|l ls IH]; simpl.
  - constructor. constructor.
  - induction l as [|x l IHl]; simpl.
    + now apply interleave_nil_head.
    + apply (interleave_cons [] x l ls). exact IHl.
Qed.

Lemma steps_reachable n rx fs fnames k s s' :
  reachable n rx fs fnames s -> steps n rx fs fnames k s s' ->
  reachable n rx fs fnames s'.
Proof.
  intros Hs Hrun. induction Hrun as [s|k s s1 s2 Hstep _ IH].
  - exact Hs.
  - apply IH. eapply reach_step; eassumption.
Qed.

Lemma steps_measure n rx fs fnames k s s' :
  steps n rx fs fnames k s s' ->
  (k + measure n rx fs fnames s' <= measure n rx fs fnames s)%nat.
Proof.
  induction 1 as [s|k s s1 s2 Hstep _ IH]; [lia|].
  pose proof (measure_decreases _ _ _ _ _ _ Hstep). lia.
Qed.

Lemma measure_init n rx fs fnames :
  measure n rx fs fnames (init n fnames) =
  (6 + 5 * n + 3 * List.length fnames +
   2 * List.length (concat (map (sends_of rx fs) fnames)))%nat.
Proof.
  unfold measure, init. simpl.
  assert (E : list_sum (map (fun f => S (job_weight rx fs f)) fnames) =
              (3 * List.length fnames +
               2 * List.length (concat (map (sends_of rx fs) fnames)))%nat).
  { induction fnames as [|f l IH]; [reflexivity|].
    change (f :: l) with ([f] ++ l).
    rewrite !map_app, list_sum_app, concat_app, !length_app, IH.
    simpl. rewrite app_nil_r. unfold job_weight. lia. }
  rewrite E. lia.
Qed.

Import MoreExamples.

Lemma example_run :
  steps 1 rx_x files ["a.txt"%string] 15 (init 1 ["a.txt"%string]) run_end.
Proof.
  unfold init, make, run_end.
  eapply steps_S; [apply step_go_dispatcher|].
  eapply steps_S; [apply step_go_worker; apply le_n|].
  eapply steps_S; [apply step_go_workers_end; apply Nat.lt_irrefl|].
  eapply steps_S; [apply step_go_aggregator|].
  eapply steps_S; [eapply step_submit; reflexivity|].
  eapply steps_S; [eapply step_close_jobs; reflexivity|].
  eapply steps_S;
    [eapply (step_take_job _ _ _ _ _ _ _ _ [] []); reflexivity|].
  eapply steps_S;
    [eapply (step_send_result _ _ _ _ _ _ _ _ [] []); reflexivity|].
  eapply steps_S; [eapply step_print; reflexivity|].
  eapply steps_S; [eapply (step_do_returns _ _ _ _ _ _ _ _ [] [])|].
  eapply steps_S;
    [eapply (step_no_job _ _ _ _ _ _ _ _ [] []); reflexivity|].
  eapply steps_S;
    [eapply (step_signal_done _ _ _ _ _ _ _ _ [] []); reflexivity|].
  eapply steps_S; [eapply step_wait_done; [apply le_n|reflexivity]|].
  eapply steps_S;
    [eapply step_close_results; [apply Nat.lt_irrefl|reflexivity]|].
  eapply steps_S; [eapply step_return; reflexivity|].
  apply steps_O.
Defined.

Lemma run_end_reachable :
  reachable 1 rx_x files ["a.txt"%string] run_end.
Proof.
  eapply steps_reachable; [apply reach_init|apply example_run].
Defined.

(** X12. Elsewhere than on Windows, with a pattern that compiles and is
    neither [-h] nor [--help] and with at least one file argument, [main]
    runs [grep] on the file arguments as they are, and on every schedule
    [grep] returns when it has printed the results of their jobs, each
    result once. *)
Theorem cgrep_prints_the_results GOOS Glob Compile Base cntWorkers fs
    prog pattern file files lineRx :
  GOOS <> "windows"%string ->
  pattern <> "-h"%string -> pattern <> "--help"%string ->
  Compile pattern = inl lineRx ->
  (1 <= cntWorkers)%nat ->
  main_of GOOS Glob Compile Base (prog :: pattern :: file :: files) =
    Grep lineRx (file :: files) /\
  inevitable cntWorkers lineRx fs (file :: files)
    (fun s => finished cntWorkers s /\
       Permutation (stdout s)
         (concat (map (sends_of lineRx fs) (file :: files))))
    (init cntWorkers (file :: files)).
Proof.
  intros Hos H1 H2 Hc Hn. split.
  - rewrite main_of_args. apply String.eqb_neq in H1, H2.
    rewrite H1, H2, Hc. simpl. unfold commandLineFiles.
    apply String.eqb_neq in Hos. now rewrite Hos.
  - eapply inevitable_impl; [|apply grep_inevitable; exact Hn].
    intros s [Hfin Hout]. split; [exact Hfin|].
    now apply interleave_concat.
Qed.

Lemma cgrep_prints_the_results_witness :
  main_of "linux" no_glob compile base
    ["/usr/bin/cgrep"; "x"; "a.txt"; "b.txt"]%string =
    Grep rx_x ["a.txt"; "b.txt"]%string /\
  inevitable 2 rx_x files ["a.txt"; "b.txt"]%string
    (fun s => finished 2 s /\
       Permutation (stdout s)
         (concat (map (sends_of rx_x files) ["a.txt"; "b.txt"]%string)))
    (init 2 ["a.txt"; "b.txt"]%string).
Proof.
  apply (cgrep_prints_the_results "linux" no_glob compile base 2 files
           "/usr/bin/cgrep" "x" "a.txt" ["b.txt"%string] rx_x).
  - discriminate.
  - discriminate.
  - discriminate.
  - reflexivity.
  - apply le_S, le_n.
Defined.

(** X13. A run of [grep] has at most
    [6 + 5 * cntWorkers + 3 * (number of files) + 2 * (number of results)]
    steps of its goroutines, whatever the schedule. *)
Theorem grep_run_length cntWorkers rx fs fnames k s :
  steps cntWorkers rx fs fnames k (init cntWorkers fnames) s ->
  (k <= 6 + 5 * cntWorkers + 3 * List.length fnames +
        2 * List.length (concat (map (sends_of rx fs) fnames)))%nat.
Proof.
  intros Hrun. apply steps_measure in Hrun.
  rewrite measure_init in Hrun. lia.
Qed.

Lemma grep_run_length_witness :
  (15 <= 6 + 5 * 1 + 3 * List.length ["a.txt"%string] +
         2 * List.length
               (concat (map (sends_of rx_x files) ["a.txt"%string])))%nat.
Proof.
  apply (grep_run_length 1 rx_x files ["a.txt"%string] 15 run_end).
  exact example_run.
Defined.

(** X14. At every moment of a run, what [grep] has printed so far is part
    of what the jobs send: no result is printed that no job sends, and
    none more often than it is sent. *)
Theorem grep_prints_only_results cntWorkers rx fs fnames s :
  reachable cntWorkers rx fs fnames s ->
  exists rest,
    Permutation (stdout s ++ rest) (concat (map (sends_of rx fs) fnames)).
Proof.
  intros Hs. apply reachable_invariant in Hs.
  pose proof (inv_data _ _ _ _ _ Hs _
                (interleave_concat_self (left_to_send rx fs fnames s))) as H.
  apply interleave_concat in H. eexists. exact H.
Qed.

Lemma grep_prints_only_results_witness :
  exists rest,
    Permutation (stdout run_end ++ rest)
      (concat (map (sends_of rx_x files) ["a.txt"%string])).
Proof.
  apply (grep_prints_only_results 1 rx_x files ["a.txt"%string] run_end).
  exact run_end_reachable.
Defined.




(** X16. The results that [grep] prints do not depend on the number of
    workers: whatever the schedules of a run with [n1] workers and of a
    run with [n2] workers, both return, and have printed the same results,
    each as often. *)
Theorem grep_pool_size_independent n1 n2 rx fs fnames :
  (1 <= n1)%nat -> (1 <= n2)%nat ->
  inevitable n1 rx fs fnames
    (fun s1 => finished n1 s1 /\
       inevitable n2 rx fs fnames
         (fun s2 => finished n2 s2 /\ Permutation (stdout s1) (stdout s2))
         (init n2 fnames))
    (init n1 fnames).
Proof.
  intros H1 H2.
  eapply inevitable_impl; [|apply grep_inevitable; exact H1].
  intros s1 [Hfin1 Hout1]. split; [exact Hfin1|].
  eapply inevitable_impl; [|apply grep_inevitable; exact H2].
  intros s2 [Hfin2 Hout2]. split; [exact Hfin2|].
  apply interleave_concat in Hout1, Hout2.
  rewrite Hout1, Hout2. reflexivity.
Qed.

Lemma grep_pool_size_independent_witness :
  inevitable 1 rx_x files ["a.txt"; "b.txt"]%string
    (fun s1 => finished 1 s1 /\
       inevitable 8 rx_x files ["a.txt"; "b.txt"]%string
         (fun s2 => finished 8 s2 /\ Permutation (stdout s1) (stdout s2))
         (init 8 ["a.txt"; "b.txt"]%string))
    (init 1 ["a.txt"; "b.txt"]%string).
Proof.
  apply (grep_pool_size_independent 1 8 rx_x files).
  - apply le_n.
  - apply le_S, le_S, le_S, le_S, le_S, le_S, le_S, le_n.
Defined.

(** X17. Without file names [grep] returns and has printed nothing. *)
Theorem grep_without_files cntWorkers rx fs :
  (1 <= cntWorkers)%nat ->
  inevitable cntWorkers rx fs []
    (fun s => finished cntWorkers s /\ stdout s = [])
    (init cntWorkers []).
Proof.
  intros Hn.
  eapply inevitable_impl; [|apply grep_inevitable; exact Hn].
  intros s [Hfin Hout]. split; [exact Hfin|].
  apply interleave_concat in Hout. simpl in Hout.
  apply Permutation_sym in Hout. now apply Permutation_nil in Hout.
Qed.

Lemma grep_without_files_witness :
  inevitable 4 rx_any files []
    (fun s => finished 4 s /\ stdout s = []) (init 4 []).
Proof.
  apply (grep_without_files 4 rx_any files).
  apply le_S, le_S, le_S, le_n.
Defined.

(** ** What grep writes *)

Lemma string_of_uint_no_NL d :
  ~ In NL (list_byte_of_string (NilEmpty.string_of_uint d)).
Proof.
  induction d; simpl; intuition discriminate.
Qed.

Lemma format_int_no_NL z : ~ In NL (format_int z).
Proof.
  unfold format_int. destruct (Z.to_int z) as [d|d]; simpl.
  - apply string_of_uint_no_NL.
  - pose proof (string_of_uint_no_NL d). intuition discriminate.
Qed.

Lemma lines_line l rest :
  ~ In NL l -> lines (l ++ NL :: rest) = (l ++ [NL]) :: lines rest.
Proof.
  induction l as [|b l IH]; intros H.
  - reflexivity.
  - change ((b :: l) ++ NL :: rest) with (b :: (l ++ NL :: rest)).
    cbn [lines]. rewrite IH by (simpl in H; tauto).
    destruct (Byte.eqb b NL) eqn:E; [|reflexivity].
    apply byte_eqb_eq in E. simpl in H. tauto.
Qed.

(** Results without newline in the file name and in the content are
    written one to a line. *)
Lemma lines_output out :
  Forall (fun r => ~ In NL (bytes (fname r)) /\ ~ In NL (line r)) out ->
  lines (output out) = map Printf_result out.
Proof.
  induction 1 as [|r out [Hf Hl] _ IH]; [reflexivity|].
  unfold output in *. cbn [map concat]. unfold Printf_result at 1.
  rewrite !app_assoc, <- (app_assoc _ [NL]). simpl app at 1.
  rewrite lines_line.
  - rewrite IH. unfold Printf_result at 2. now rewrite !app_assoc.
  - rewrite !in_app_iff. pose proof (format_int_no_NL (lino r)).
    simpl. intuition discriminate.
Qed.

Lemma sends_of_no_NL rx fs f r : In r (sends_of rx fs f) -> ~ In NL (line r).
Proof.
  unfold sends_of.
  destruct (Open fs f) as [file err] eqn:E.
  rewrite (Do_reads rx fs (mkJob f results_chan) file err E).
  intros H. apply matches_int_In in H.
  destruct H as (_ & _ & raw & Hraw & ->).
  eapply strip_no_NL. exact Hraw.
Qed.

(** X18. When no file name has a newline in it, what [grep] has written
    when it returns is one line for each result, in the order of
    printing: the file name, the line number in decimal and the content,
    with [:] between them. *)
Theorem grep_writes_one_line_per_result cntWorkers rx fs fnames :
  (1 <= cntWorkers)%nat ->
  (forall f, In f fnames -> ~ In NL (bytes f)) ->
  inevitable cntWorkers rx fs fnames
    (fun s => finished cntWorkers s /\
       lines (output (stdout s)) = map Printf_result (stdout s) /\
       List.length (lines (output (stdout s))) =
       List.length (concat (map (sends_of rx fs) fnames)))
    (init cntWorkers fnames).
Proof.
  intros Hn Hnames.
  eapply inevitable_impl; [|apply grep_inevitable; exact Hn].
  intros s [Hfin Hout]. split; [exact Hfin|].
  apply interleave_concat in Hout.
  assert (L : lines (output (stdout s)) = map Printf_result (stdout s)).
  { apply lines_output. apply Forall_forall. intros r Hr.
    apply (Permutation_in _ Hout) in Hr. apply in_concat in Hr.
    destruct Hr as (rs & Hrs & Hr). apply in_map_iff in Hrs.
    destruct Hrs as (f & <- & Hf). split.
    - rewrite (sends_of_fname _ _ _ _ Hr). now apply Hnames.
    - eapply sends_of_no_NL. exact Hr. }
  split; [exact L|].
  rewrite L, length_map. now apply Permutation_length.
Qed.

Lemma grep_writes_one_line_per_result_witness :
  inevitable 2 rx_x files ["a.txt"; "b.txt"]%string
    (fun s => finished 2 s /\
       lines (output (stdout s)) = map Printf_result (stdout s) /\
       List.length (lines (output (stdout s))) =
       List.length
         (concat (map (sends_of rx_x files) ["a.txt"; "b.txt"]%string)))
    (init 2 ["a.txt"; "b.txt"]%string).
Proof.
  apply (grep_writes_one_line_per_result 2 rx_x files).
  - apply le_S, le_n.
  - intros f [<-|[<-|[]]]; simpl; intuition discriminate.
Defined.

(** * Patterns that do not match the empty line *)

(** What is read of a text is its lines, and an empty read after them
    when the text is empty or ends with a newline. *)
Lemma reads_lines text :
  reads text = lines text \/ reads text = lines text ++ [[]].
Proof.
  induction text as [|b rest IH]; [now right|].
  simpl. destruct (Byte.eqb b NL).
  - destruct IH as [->| ->]; [now left|now right].
  - destruct (lines rest) as [|l ls].
    + destruct IH as [->| ->]; [now left|now left].
    + destruct IH as [->| ->]; [now left|now right].
Qed.

Lemma matches_lines rx f text :
  rx [] = false ->
  matches rx f 1 (reads text) = matches rx f 1 (lines text).
Proof.
  intros Hrx. destruct (reads_lines text) as [->| ->]; [reflexivity|].
  rewrite matches_app. cbn [matches]. change (strip []) with (@nil byte).
  rewrite Hrx. now rewrite !app_nil_r.
Qed.

Lemma sends_of_lines rx fs f file :
  rx [] = false -> fs f = inl file -> fits file ->
  sends_of rx fs f = matches rx f 1 (lines (content file)).
Proof.
  intros Hrx Hfs Hfits.
  rewrite (sends_of_file _ _ _ _ Hfs Hfits). now apply matches_lines.
Qed.

(** X19. For a pattern that does not match the empty line and a file that
    is opened and read to its end, [Job.Do] sends the matches of the lines
    of the file, numbered from 1, and nothing else, and logs nothing. An
    empty file gives no result. *)
Theorem Do_sends_the_matches_of_the_lines rx fs job file :
  rx [] = false ->
  fs (job_fname job) = inl file -> failure file = EOF -> fits file ->
  Do rx fs job =
  Some (matches rx (job_fname job) 1 (lines (content file)), []).
Proof.
  intros Hrx Hfs Hfail Hfits.
  rewrite (Do_fits _ _ _ _ _ (Open_ok _ _ _ Hfs) Hfits).
  rewrite matches_lines by exact Hrx. now rewrite Hfail.
Qed.

Lemma Do_sends_the_matches_of_the_lines_witness :
  Do rx_x files (job "a.txt") =
  Some (matches rx_x "a.txt" 1 (lines (bytes "x" ++ [NL])), []).
Proof.
  apply (Do_sends_the_matches_of_the_lines rx_x files (job "a.txt")
           (mkFile (bytes "x" ++ [NL]) EOF)).
  - reflexivity.
  - reflexivity.
  - reflexivity.
  - unfold fits. vm_compute. reflexivity.
Defined.

(** X20. For a pattern that does not match the empty line, when every
    file is opened and read to its end, on every schedule [grep] returns
    when it has printed, each once, the triples of file name, line number
    and stripped content of the lines that match, over all the files. *)
Theorem grep_prints_the_matching_lines cntWorkers rx fs fnames
    (file_of : string -> File) :
  (1 <= cntWorkers)%nat ->
  rx [] = false ->
  (forall f, In f fnames ->
     fs f = inl (file_of f) /\ failure (file_of f) = EOF /\ fits (file_of f)) ->
  inevitable cntWorkers rx fs fnames
    (fun s => finished cntWorkers s /\
       Permutation (stdout s)
         (concat (map (fun f => matches rx f 1 (lines (content (file_of f))))
                      fnames)))
    (init cntWorkers fnames).
Proof.
  intros Hn Hrx Hfiles.
  eapply inevitable_impl; [|apply grep_inevitable; exact Hn].
  intros s [Hfin Hout]. split; [exact Hfin|].
  apply interleave_concat in Hout. rewrite Hout.
  apply Permutation_refl'. f_equal. apply map_ext_in. intros f Hf.
  destruct (Hfiles f Hf) as (Hfs & _ & Hfits).
  now apply sends_of_lines.
Qed.

Lemma grep_prints_the_matching_lines_witness :
  inevitable 2 rx_x files ["a.txt"; "b.txt"]%string
    (fun s => finished 2 s /\
       Permutation (stdout s)
         (concat
            (map (fun f =>
                    matches rx_x f 1
                      (lines (content
                         (if String.eqb f "a.txt"
                          then mkFile (bytes "x" ++ [NL]) EOF
                          else mkFile (bytes "ax" ++ [NL] ++ bytes "yz" ++
                                       [NL] ++ bytes "xb") EOF))))
                 ["a.txt"; "b.txt"]%string)))
    (init 2 ["a.txt"; "b.txt"]%string).
Proof.
  apply (grep_prints_the_matching_lines 2 rx_x files
           ["a.txt"; "b.txt"]%string
           (fun f => if String.eqb f "a.txt"
                     then mkFile (bytes "x" ++ [NL]) EOF
                     else mkFile (bytes "ax" ++ [NL] ++ bytes "yz" ++
                                  [NL] ++ bytes "xb") EOF)).
  - apply le_S, le_n.
  - reflexivity.
  - intros f [<-|[<-|[]]]; (split; [reflexivity|]);
      (split; [reflexivity|]); unfold fits; vm_compute; reflexivity.
Defined.

(** X21. For a pattern that does not match the empty line, a file that
    cannot be opened adds nothing to what [grep] prints and takes nothing
    away: on every schedule [grep] returns when it has printed the results
    of the other files. *)
Theorem grep_skips_a_file_it_cannot_open cntWorkers rx fs fnames1 f fnames2
    err :
  (1 <= cntWorkers)%nat ->
  rx [] = false -> fs f = inr err ->
  inevitable cntWorkers rx fs (fnames1 ++ f :: fnames2)
    (fun s => finished cntWorkers s /\
       Permutation (stdout s)
         (concat (map (sends_of rx fs) (fnames1 ++ fnames2))))
    (init cntWorkers (fnames1 ++ f :: fnames2)).
Proof.
  intros Hn Hrx Hfs.
  eapply inevitable_impl; [|apply grep_inevitable; exact Hn].
  intros s [Hfin Hout]. split; [exact Hfin|].
  apply interleave_concat in Hout. rewrite Hout.
  unfold all_sends. rewrite !map_app, !concat_app. cbn [map concat].
  now rewrite (sends_of_open_failure _ _ _ _ Hfs Hrx).
Qed.

Lemma grep_skips_a_file_it_cannot_open_witness :
  inevitable 2 rx_x files (["a.txt"%string] ++ "missing.txt"%string ::
                           ["b.txt"%string])
    (fun s => finished 2 s /\
       Permutation (stdout s)
         (concat (map (sends_of rx_x files)
                      (["a.txt"%string] ++ ["b.txt"%string]))))
    (init 2 (["a.txt"%string] ++ "missing.txt"%string :: ["b.txt"%string])).
Proof.
  apply (grep_skips_a_file_it_cannot_open 2 rx_x files ["a.txt"%string]
           "missing.txt" ["b.txt"%string] no_such_file).
  - apply le_S, le_n.
  - reflexivity.
  - reflexivity.
Defined.

(** * ReadBytes and TrimRight as Job.Do uses them *)

(** X22. [ReadBytes] takes a first part off the input and leaves the
    rest: no byte is lost. The part it returns has the delimiter at its
    end and nowhere else when there is no error, and nowhere at all when
    there is one; the error is then the one that ends the input, and
    nothing is left. *)
Theorem ReadBytes_splits_the_input delim input e l err rest :
  ReadBytes delim input e = (l, err, rest) ->
  input = l ++ rest /\
  match err with
  | None => exists body, l = body ++ [delim] /\ ~ In delim body
  | Some e' => e' = e /\ rest = [] /\ ~ In delim l
  end.
Proof.
  revert l err rest. induction input as [|b input IH]; simpl;
    intros l err rest H.
  - injection H as <- <- <-. split; [reflexivity|].
    repeat split. intros [].
  - destruct (Byte.eqb b delim) eqn:E.
    + injection H as <- <- <-. apply byte_eqb_eq in E. subst b.
      split; [reflexivity|]. exists []. split; [reflexivity|intros []].
    + assert (Hb : b <> delim).
      { intros ->. now rewrite (proj2 (byte_eqb_eq delim delim) eq_refl) in E. }
      destruct (ReadBytes delim input e) as [[l' err'] rest'] eqn:R.
      injection H as <- <- <-.
      destruct (IH _ _ _ eq_refl) as [-> Herr]. split; [reflexivity|].
      destruct err' as [e'|].
      * destruct Herr as (-> & -> & Hl). repeat split.
        simpl. intuition congruence.
      * destruct Herr as (body & -> & Hbody).
        exists (b :: body). split; [reflexivity|].
        simpl. intuition congruence.
Qed.

Lemma ReadBytes_splits_the_input_witness :
  bytes "ab" ++ [NL] ++ bytes "cd" = (bytes "ab" ++ [NL]) ++ bytes "cd" /\
  exists body, bytes "ab" ++ [NL] = body ++ [NL] /\ ~ In NL body.
Proof.
  apply (ReadBytes_splits_the_input NL (bytes "ab" ++ [NL] ++ bytes "cd")
           io_error (bytes "ab" ++ [NL]) None (bytes "cd")).
  reflexivity.
Defined.

(** X23. [TrimRight] cuts off the end of the line bytes of the cutset and
    no other byte, it leaves no byte of the cutset at the end, and on a
    line it has trimmed it changes nothing. *)
Theorem TrimRight_cuts_the_cutset_only s cut :
  (exists tail, s = TrimRight s cut ++ tail /\
                Forall (fun b => contains cut b = true) tail) /\
  (forall s' b, TrimRight s cut = s' ++ [b] -> contains cut b = false) /\
  TrimRight (TrimRight s cut) cut = TrimRight s cut.
Proof.
  split; [apply TrimRight_split|]. split; [apply TrimRight_last|].
  destruct (TrimRight s cut) as [|b t] eqn:E using rev_ind; [reflexivity|].
  apply TrimRight_keeps. eapply TrimRight_last. exact E.
Qed.

(** * grep with one worker *)

Lemma invariant_workers_le n rx fs fnames s :
  invariant n rx fs fnames s -> (List.length (workers s) <= n)%nat.
Proof.
  intros [_ _ Hmain _ _ _ _ _ _ _ _].
  destruct (main s) as [|i| | |].
  - destruct Hmain as (_ & -> & _). simpl. lia.
  - destruct Hmain as (_ & Hl & Hi & _). lia.
  - destruct Hmain as (_ & Hl & _). lia.
  - destruct Hmain as (_ & Hl & _). lia.
  - destruct Hmain as (_ & Hl & _). lia.
Qed.

Lemma single_worker ws1 (w : worker) ws2 :
  (List.length (ws1 ++ w :: ws2) <= 1)%nat -> ws1 = [] /\ ws2 = [].
Proof.
  rewrite length_app. simpl. intros H.
  destruct ws1; [|simpl in H; lia]. destruct ws2; [|simpl in H; lia].
  now split.
Qed.

(** With one worker no step changes the order in which the results are
    printed or wait to be printed. *)
Lemma single_worker_step n rx fs fnames s s' :
  (List.length (workers s) <= 1)%nat ->
  step n rx fs fnames s s' ->
  in_order rx fs fnames s' = in_order rx fs fnames s.
Proof.
  intros Hlen Hstep.
  destruct Hstep; unfold in_order, left_to_send; simpl in *; chan_facts;
    simpl;
    try match goal with
    | H : (List.length (_ ++ _ :: _) <= 1)%nat |- _ =>
        apply single_worker in H; destruct H as [-> ->]
    end;
    repeat rewrite ?map_app, ?concat_app; simpl;
    repeat rewrite <- ?app_assoc; simpl;
    try reflexivity.
  (* the worker takes a job *)
  match goal with
  | H : Do _ _ _ = Some _ |- _ => rewrite (sends_of_Do _ _ _ _ _ H)
  end.
  now rewrite concat_app.
Qed.

Lemma inevitable_invariant n rx fs fnames (P Q : state -> Prop) s :
  (forall s s', Q s -> step n rx fs fnames s s' -> Q s') ->
  Q s ->
  inevitable n rx fs fnames P s ->
  inevitable n rx fs fnames (fun s => P s /\ Q s) s.
Proof.
  intros Hstep HQ H. induction H as [s H|s Hex _ IH].
  - apply inev_now. now split.
  - apply inev_step; [exact Hex|].
    intros s' Hs'. apply IH; [exact Hs'|]. eapply Hstep; eassumption.
Qed.

Lemma finished_nothing_left n rx fs fnames s :
  (1 <= n)%nat ->
  invariant n rx fs fnames s -> finished n s ->
  concat (left_to_send rx fs fnames s) = [].
Proof.
  intros Hn Hinv (Hm & Hrc & Hrb & Hd & Hlen & Hws & Ha).
  unfold left_to_send.
  destruct (inv_drained _ _ _ _ _ Hinv) as [_ ->].
  - destruct (workers s) as [|w ws]; [simpl in Hlen; lia|].
    inversion Hws; subst. apply Exists_cons_hd. now right.
  - rewrite Hd. simpl. rewrite app_nil_r. clear Hlen.
    induction Hws as [|w ws -> _ IH]; [reflexivity|exact IH].
Qed.

(** X24. With one worker, on every schedule [grep] prints the results
    file after file in the order of the file list, and within a file in
    the order in which its job sends them. *)
Theorem grep_single_worker_prints_in_order rx fs fnames :
  inevitable 1 rx fs fnames
    (fun s => finished 1 s /\
              stdout s = concat (map (sends_of rx fs) fnames))
    (init 1 fnames).
Proof.
  pose proof (grep_inevitable 1 rx fs fnames (le_n 1)) as H.
  apply (inevitable_invariant 1 rx fs fnames _
           (fun s => invariant 1 rx fs fnames s /\
                     in_order rx fs fnames s =
                     concat (map (sends_of rx fs) fnames))) in H.
  - eapply inevitable_impl; [|exact H].
    intros s [[Hfin _] [Hinv Hord]]. split; [exact Hfin|].
    unfold in_order in Hord.
    rewrite (finished_nothing_left 1 rx fs fnames s (le_n 1) Hinv Hfin)
      in Hord.
    destruct Hfin as (_ & _ & Hrb & _). rewrite Hrb in Hord.
    now rewrite !app_nil_r in Hord.
  - intros s s' [Hinv Hord] Hstep. split.
    + eapply invariant_step; eassumption.
    + rewrite <- Hord. apply (single_worker_step 1 rx fs fnames s s');
        [|exact Hstep].
      now apply (invariant_workers_le 1 rx fs fnames).
  - split; [apply invariant_init|].
    unfold in_order, left_to_send, init. simpl. reflexivity.
Qed.
